(** * Minimización de AFD por tabla de distinguibilidad

    Shallow embedding of [tarea1.py] (validar_entrada,
    crear_tabla_distinguibilidad, encontrar_pares_equivalentes) and the
    properties of the table-filling algorithm it implements.

    Python integers are unbounded, so states and indices are [Z]; Python
    lists are Rocq lists read and written through [getitem]/[setitem], which
    follow Python's subscript rules (negative subscripts count from the end,
    anything else out of range raises IndexError). *)

From Stdlib Require Import ZArith List Bool Lia DecimalString Ascii.
From stdpp Require Import base list sorting strings pretty.

Local Open Scope Z_scope.

(** ** Results of a Python computation *)

(** A computation returns a value, raises IndexError, or (for the [while]
    loop only, which is run with an explicit iteration budget) runs out of
    budget. *)
Inductive res (A : Type) : Type :=
| Ok (a : A)
| IndexError
| SinFuel.
Arguments Ok {A} a.
Arguments IndexError {A}.
Arguments SinFuel {A}.

Definition bind {A B : Type} (m : res A) (k : A → res B) : res B :=
  match m with
  | Ok a => k a
  | IndexError => IndexError
  | SinFuel => SinFuel
  end.

Notation "'do' x <- m ; k" := (bind m (fun x => k))
  (at level 10, x name, m at level 100, k at level 200).
Notation "'do' ' p <- m ; k" := (bind m (fun x => let 'p := x in k))
  (at level 10, p pattern, m at level 100, k at level 200).

(** ** Python lists *)

Definition len {A : Type} (l : list A) : Z := Z.of_nat (length l).

(** Position designated by subscript [k] in a list: [l[k]] for
    [0 <= k < len l], [l[len l + k]] for [-len l <= k < 0]. *)
Definition indice {A : Type} (l : list A) (k : Z) : res nat :=
  if (0 <=? k) && (k <? len l) then Ok (Z.to_nat k)
  else if (- len l <=? k) && (k <? 0) then Ok (Z.to_nat (len l + k))
  else IndexError.

Definition getitem {A : Type} (l : list A) (k : Z) : res A :=
  do n <- indice l k ;
  match l !! n with
  | Some x => Ok x
  | None => IndexError
  end.

Definition setitem {A : Type} (l : list A) (k : Z) (x : A) : res (list A) :=
  do n <- indice l k ; Ok (<[n:=x]> l).

(** [range(a, b)] *)
Definition range (a b : Z) : list Z := seqZ a (b - a).

(** [x in l] on a list of integers *)
Definition pertenece (x : Z) (l : list Z) : bool := existsb (Z.eqb x) l.

(** ** Loops *)

(** [for x in l: s = cuerpo(x, s)] *)
Fixpoint for_ {S : Type} (l : list Z) (cuerpo : Z → S → res S) (s : S)
  : res S :=
  match l with
  | [] => Ok s
  | x :: r => do s' <- cuerpo x s ; for_ r cuerpo s'
  end.

Inductive control : Type := Continue | Break.

(** A [for] loop whose body may [break]. *)
Fixpoint for_break {S : Type} (l : list Z)
    (cuerpo : Z → S → res (control * S)) (s : S) : res S :=
  match l with
  | [] => Ok s
  | x :: r =>
      do cs <- cuerpo x s ;
      match cs with
      | (Break, s') => Ok s'
      | (Continue, s') => for_break r cuerpo s'
      end
  end.

(** ** validar_entrada *)

(** The diagnostics printed by [validar_entrada], one constructor per
    [print] call, carrying the values interpolated in the message. *)
Inductive mensaje : Type :=
| MsgEstados
| MsgFinal (estado : Z)
| MsgFilas (filas estados : Z)
| MsgDestino (i j destino : Z).

(** [for estado in estados_finales: if estado < 0 or estado >= estados: ...] *)
Fixpoint validar_finales (estados : Z) (estados_finales : list Z)
  : option mensaje :=
  match estados_finales with
  | [] => None
  | estado :: resto =>
      if (estado <? 0) || (estado >=? estados) then Some (MsgFinal estado)
      else validar_finales estados resto
  end.

(** [for j, destino in enumerate(fila): ...], [j] counted from the argument *)
Fixpoint validar_fila (estados i j : Z) (fila : list Z) : option mensaje :=
  match fila with
  | [] => None
  | destino :: resto =>
      if (destino <? 0) || (destino >=? estados)
      then Some (MsgDestino i j destino)
      else validar_fila estados i (j + 1) resto
  end.

(** [for i, fila in enumerate(transiciones): ...] *)
Fixpoint validar_filas (estados i : Z) (transiciones : list (list Z))
  : option mensaje :=
  match transiciones with
  | [] => None
  | fila :: resto =>
      match validar_fila estados i 0 fila with
      | Some m => Some m
      | None => validar_filas estados (i + 1) resto
      end
  end.

(** Returns what is printed and the boolean result.  The arguments are
    only read: the source has no assignment to them or through them. *)
Definition validar_entrada (estados : Z) (estados_finales : list Z)
    (transiciones : list (list Z)) : list mensaje * bool :=
  if estados <=? 0 then ([MsgEstados], false)
  else
    match validar_finales estados estados_finales with
    | Some m => ([m], false)
    | None =>
        if negb (len transiciones =? estados)
        then ([MsgFilas (len transiciones) estados], false)
        else
          match validar_filas estados 0 transiciones with
          | Some m => ([m], false)
          | None => ([], true)
          end
    end.

(** ** crear_tabla_distinguibilidad *)

Abbreviation tabla_t := (list (list bool)).

(** [[[False for _ in range(estados)] for _ in range(estados)]] *)
Definition tabla_inicial (estados : Z) : tabla_t :=
  replicate (Z.to_nat estados) (replicate (Z.to_nat estados) false).

(** [tabla[i][j]] *)
Definition leer (tabla : tabla_t) (i j : Z) : res bool :=
  do fila <- getitem tabla i ; getitem fila j.

(** [tabla[i][j] = True]: row [i] is updated in place; the rows are
    distinct objects, so no other row changes. *)
Definition marcar (tabla : tabla_t) (i j : Z) : res tabla_t :=
  do fila <- getitem tabla i ;
  do fila' <- setitem fila j true ;
  setitem tabla i fila'.

(** Body of the base-case loops (source lines 107-108). *)
Definition cuerpo_base (estados_finales : list Z) (i j : Z) (tabla : tabla_t)
  : res tabla_t :=
  if negb (eqb (pertenece i estados_finales) (pertenece j estados_finales))
  then marcar tabla i j
  else Ok tabla.

(** Paso 1 (source lines 104-108). *)
Definition paso_base (estados : Z) (estados_finales : list Z)
    (tabla : tabla_t) : res tabla_t :=
  for_ (range 0 estados)
    (fun i => for_ (range (i + 1) estados) (cuerpo_base estados_finales i))
    tabla.

(** Body of the loop over symbols (source lines 124-140); the loop state is
    the table and the flag [cambiado]. *)
Definition cuerpo_simbolo (transiciones : list (list Z)) (i j simbolo : Z)
    (s : tabla_t * bool) : res (control * (tabla_t * bool)) :=
  let '(tabla, cambiado) := s in
  do fila_j <- getitem transiciones j ;
  if simbolo >=? len fila_j then Ok (Continue, (tabla, cambiado))
  else
    do fila_i <- getitem transiciones i ;
    do p <- getitem fila_i simbolo ;
    do q <- getitem fila_j simbolo ;
    let '(p, q) := if p >? q then (q, p) else (p, q) in
    do m <- leer tabla p q ;
    if m then
      do tabla' <- marcar tabla i j ;
      Ok (Break, (tabla', true))
    else Ok (Continue, (tabla, cambiado)).

(** Body of the loops over pairs (source lines 121-140). *)
Definition cuerpo_par (transiciones : list (list Z)) (i j : Z)
    (s : tabla_t * bool) : res (tabla_t * bool) :=
  do m <- leer (fst s) i j ;
  if negb m then
    do fila_i <- getitem transiciones i ;
    for_break (range 0 (len fila_i)) (cuerpo_simbolo transiciones i j) s
  else Ok s.

(** One pass of the [while] body (source lines 114-140): [cambiado] is
    reset, every pair is revisited. *)
Definition pasada (estados : Z) (transiciones : list (list Z))
    (tabla : tabla_t) : res (tabla_t * bool) :=
  for_ (range 0 estados)
    (fun i => for_ (range (i + 1) estados) (cuerpo_par transiciones i))
    (tabla, false).

(** [while cambiado: ...] with [cambiado = True] on entry; [fuel] bounds the
    number of passes the model is allowed to run. *)
Fixpoint mientras (fuel : nat) (estados : Z) (transiciones : list (list Z))
    (tabla : tabla_t) (iteracion : Z) : res (tabla_t * Z) :=
  match fuel with
  | O => SinFuel
  | S fuel' =>
      do '(tabla', cambiado) <- pasada estados transiciones tabla ;
      if cambiado
      then mientras fuel' estados transiciones tabla' (iteracion + 1)
      else Ok (tabla', iteracion + 1)
  end.

(** The function with its local counter [iteracion] exposed. *)
Definition crear_tabla_iteraciones (fuel : nat) (estados : Z)
    (estados_finales : list Z) (transiciones : list (list Z))
  : res (tabla_t * Z) :=
  do tabla <- paso_base estados estados_finales (tabla_inicial estados) ;
  mientras fuel estados transiciones tabla 0.

Definition crear_tabla_distinguibilidad (fuel : nat) (estados : Z)
    (estados_finales : list Z) (transiciones : list (list Z)) : res tabla_t :=
  do '(tabla, _) <- crear_tabla_iteraciones fuel estados estados_finales
                   transiciones ;
  Ok tabla.

(** ** encontrar_pares_equivalentes *)

Definition cuerpo_pares (tabla : tabla_t) (i j : Z) (pares : list (Z * Z))
  : res (list (Z * Z)) :=
  do m <- leer tabla i j ;
  if negb m then Ok (pares ++ [(i, j)]) else Ok pares.

Definition encontrar_pares_equivalentes (estados : Z) (tabla : tabla_t)
  : res (list (Z * Z)) :=
  for_ (range 0 estados)
    (fun i => for_ (range (i + 1) estados) (cuerpo_pares tabla i))
    [].

(** ** formatear_salida *)

(** [p <= q] on pairs of integers, as Python orders tuples. *)
Definition par_leb (p q : Z * Z) : bool :=
  (fst p <? fst q) || ((fst p =? fst q) && (snd p <=? snd q)).

(** [sorted(pares)]: the pairs in ascending order.  Equal pairs are the same
    value, so the result does not depend on the sorting algorithm. *)
Definition par_le (p q : Z * Z) : Prop := par_leb p q = true.

#[global] Instance par_le_dec : RelDecision par_le :=
  fun p q => Bool.bool_dec (par_leb p q) true.

Definition sorted (pares : list (Z * Z)) : list (Z * Z) :=
  merge_sort par_le pares.

(** [f"({i},{j})"]; [pretty] writes an integer in decimal, with a leading
    minus sign when negative, as [str] does. *)
Definition formato_par (p : Z * Z) : string :=
  "(" +:+ pretty (fst p) +:+ "," +:+ pretty (snd p) +:+ ")".

Definition formatear_salida (pares_equivalentes : list (Z * Z)) : string :=
  match pares_equivalentes with
  | [] => "None"
  | _ => String.concat " " (map formato_par (sorted pares_equivalentes))
  end.

(** ** Input and output *)

(** The exceptions the program can meet.  [SystemExit] is not an
    [Exception]: no [except Exception] clause catches it. *)
Inductive excepcion : Type :=
| ValueError
| EOFError
| ErrorIndice
| SystemExit (codigo : Z).

Definition es_Exception (e : excepcion) : bool :=
  match e with
  | SystemExit _ => false
  | _ => true
  end.

(** What is printed, one constructor per [print] call of the source outside
    [validar_entrada], with the values interpolated in the text. *)
Inductive impreso : Type :=
| ImpNoEncontrado (nombre : string)
| ImpAyudaArchivo
| ImpErrorLectura (nombre : string)
| ImpValidacion (m : mensaje)
| ImpFormato
| ImpInesperado (e : excepcion)
| ImpCasosNoPositivo
| ImpProcesando (casos : Z)
| ImpSeparador
| ImpCaso (caso : Z)
| ImpSubrayado
| ImpErrorCaso
| ImpPares (resultado : string)
| ImpTotal (total : Z)
| ImpSinEquivalentes
| ImpSeparadorFinal
| ImpCompletado
| ImpFinEntrada.

(** The state the I/O layer works on: the lines not yet consumed by
    [input()] and what has been printed so far, oldest first. *)
Record mundo : Type := Mundo { lineas : list string; salida : list impreso }.

Inductive resultado (A : Type) : Type :=
| Valor (a : A)
| Lanza (e : excepcion)
| Agotado.
Arguments Valor {A} a.
Arguments Lanza {A} e.
Arguments Agotado {A}.

(** A computation of the I/O layer.  What an interrupted computation has
    consumed and printed stays consumed and printed. *)
Definition io (A : Type) : Type := mundo → resultado A * mundo.

Definition ret {A : Type} (a : A) : io A := fun w => (Valor a, w).

Definition lanzar {A : Type} (e : excepcion) : io A := fun w => (Lanza e, w).

Definition ligar {A B : Type} (m : io A) (k : A → io B) : io B :=
  fun w =>
    match m w with
    | (Valor a, w') => k a w'
    | (Lanza e, w') => (Lanza e, w')
    | (Agotado, w') => (Agotado, w')
    end.

Notation "'sea' x <- m ; k" := (ligar m (fun x => k))
  (at level 10, x name, m at level 100, k at level 200).
Notation "m ;; k" := (ligar m (fun _ => k))
  (at level 100, k at level 200, right associativity).

(** [try: m except ...]: [manejador e] is the body of the first clause that
    matches [e], if any. *)
Definition atrapar {A : Type} (m : io A) (manejador : excepcion → option (io A))
  : io A :=
  fun w =>
    match m w with
    | (Lanza e, w') =>
        match manejador e with
        | Some k => k w'
        | None => (Lanza e, w')
        end
    | r => r
    end.

Definition print (m : impreso) : io unit :=
  fun w => (Valor tt, Mundo (lineas w) (salida w ++ [m])).

(** The [input] that [main] installs (source lines 244-247). *)
Definition input : io string :=
  fun w =>
    match lineas w with
    | [] => (Lanza EOFError, w)
    | l :: resto => (Valor l, Mundo resto (salida w))
    end.

(** [validar_entrada] seen from the I/O layer: its diagnostics go to the
    output. *)
Definition validar_entrada_io (estados : Z) (estados_finales : list Z)
    (transiciones : list (list Z)) : io bool :=
  fun w =>
    let '(mensajes, valida) :=
      validar_entrada estados estados_finales transiciones in
    (Valor valida, Mundo (lineas w) (salida w ++ map ImpValidacion mensajes)).

(** A result of the core functions seen from the I/O layer. *)
Definition elevar {A : Type} (r : res A) : io A :=
  fun w =>
    match r with
    | Ok a => (Valor a, w)
    | IndexError => (Lanza ErrorIndice, w)
    | SinFuel => (Agotado, w)
    end.

(** [for x in l: s = cuerpo(x, s)] in the I/O layer. *)
Fixpoint para {S : Type} (l : list Z) (cuerpo : Z → S → io S) (s : S) : io S :=
  match l with
  | [] => ret s
  | x :: r => sea s' <- cuerpo x s ; para r cuerpo s'
  end.

(** The built-in functions the I/O layer calls are not part of the
    program: [py_int s] is [int(s)] ([None] when it raises ValueError),
    [py_strip s] is [s.strip()], [py_split s] is [s.split()]. *)
Record builtins : Type := Builtins {
  py_int : string → option Z;
  py_strip : string → string;
  py_split : string → list string
}.

(** [int(s)] *)
Definition int_ (B : builtins) (s : string) : io Z :=
  match py_int B s with
  | Some z => ret z
  | None => lanzar ValueError
  end.

(** [list(map(int, tokens))] *)
Definition enteros (B : builtins) (tokens : list string) : io (list Z) :=
  match mapM (py_int B) tokens with
  | Some zs => ret zs
  | None => lanzar ValueError
  end.

(** ** procesar_caso_prueba *)

(** Body of the loop that reads the rows (source lines 194-195). *)
Definition cuerpo_transiciones (B : builtins) (_ : Z)
    (transiciones : list (list Z)) : io (list (list Z)) :=
  sea l <- input ;
  sea fila <- enteros B (py_split B (py_strip B l)) ;
  ret (transiciones ++ [fila]).

Definition procesar_caso_prueba (B : builtins) (fuel : nat)
  : io (option (list (Z * Z))) :=
  atrapar
    (sea l <- input ;
     sea estados <- int_ B (py_strip B l) ;
     if estados <=? 0 then
       print (ImpValidacion MsgEstados) ;; ret None
     else
       sea _alfabeto <- input ;
       sea l <- input ;
       let linea_finales := py_strip B l in
       sea estados_finales <-
         (if String.eqb linea_finales "" then ret []
          else enteros B (py_split B linea_finales)) ;
       sea transiciones <-
         para (range 0 estados) (cuerpo_transiciones B) [] ;
       sea valida <-
         validar_entrada_io estados estados_finales transiciones ;
       if negb valida then ret None
       else
         sea tabla <- elevar (crear_tabla_distinguibilidad fuel estados
                                estados_finales transiciones) ;
         sea pares_equivalentes <-
           elevar (encontrar_pares_equivalentes estados tabla) ;
         ret (Some pares_equivalentes))
    (fun e =>
       match e with
       | ValueError => Some (print ImpFormato ;; ret None)
       | SystemExit _ => None
       | _ => Some (print (ImpInesperado e) ;; ret None)
       end).

(** ** main *)

(** What opening and reading the file came to: the lines of the file, or
    one of the two failures that [leer_archivo_entrada] handles. *)
Inductive lectura : Type :=
| Leido (contenido : list string)
| NoEncontrado
| FalloLectura.

Definition leer_archivo_entrada (nombre_archivo : string) (archivo : lectura)
  : io (list string) :=
  match archivo with
  | Leido contenido => ret contenido
  | NoEncontrado =>
      print (ImpNoEncontrado nombre_archivo) ;;
      print ImpAyudaArchivo ;;
      lanzar (SystemExit 1)
  | FalloLectura =>
      print (ImpErrorLectura nombre_archivo) ;;
      lanzar (SystemExit 1)
  end.

(** Body of the loop over the cases (source lines 265-281). *)
Definition cuerpo_caso (B : builtins) (fuel : nat) (caso : Z) (_ : unit)
  : io unit :=
  print (ImpCaso caso) ;;
  print ImpSubrayado ;;
  sea pares_equivalentes <- procesar_caso_prueba B fuel ;
  match pares_equivalentes with
  | None => print ImpErrorCaso
  | Some pares =>
      print (ImpPares (formatear_salida pares)) ;;
      match pares with
      | [] => print ImpSinEquivalentes
      | _ => print (ImpTotal (len pares))
      end
  end.

(** From here on [input()] consumes the lines read from the file (source
    lines 244-251). *)
Definition instalar (lines : list string) : io unit :=
  fun w => (Valor tt, Mundo lines (salida w)).

Definition main (B : builtins) (fuel : nat) (archivo : lectura) : io unit :=
  sea lines <- leer_archivo_entrada "input.txt" archivo ;
  instalar lines ;;
  atrapar
    (sea l <- input ;
     sea casos <- int_ B (py_strip B l) ;
     if casos <=? 0 then print ImpCasosNoPositivo
     else
       print (ImpProcesando casos) ;;
       print ImpSeparador ;;
       para (range 1 (casos + 1)) (cuerpo_caso B fuel) tt ;;
       print ImpSeparadorFinal ;;
       print ImpCompletado)
    (fun e =>
       match e with
       | EOFError => Some (print ImpFinEntrada)
       | ValueError => Some (print ImpFormato)
       | SystemExit _ => None
       | _ => Some (print (ImpInesperado e))
       end).

(** ** What a line of input holds *)

(** [list(map(int, l.strip().split()))]; [None] when it raises
    ValueError. *)
Definition enteros_de (B : builtins) (l : string) : option (list Z) :=
  mapM (py_int B) (py_split B (py_strip B l)).

(** The final states that [procesar_caso_prueba] reads off line [l]. *)
Definition finales_de (B : builtins) (l : string) : option (list Z) :=
  if String.eqb (py_strip B l) "" then Some [] else enteros_de B l.

(** The numbers of the cases announced in what was printed. *)
Definition casos_anunciados (impresos : list impreso) : list Z :=
  omap (fun m => match m with ImpCaso caso => Some caso | _ => None end)
       impresos.

(** A sample of the built-ins, enough for lines of decimal numbers
    separated by spaces with no blanks around them: [int] reads an optional
    minus sign and decimal digits, [strip] finds nothing to remove, [split]
    cuts at spaces. *)
Definition builtins_muestra : builtins :=
  Builtins (fun s => option_map Z.of_int (NilEmpty.int_of_string s))
           (fun s => s)
           String.words.

(** A computation that announces no case and does not leave the program:
    whatever it prints holds no [ImpCaso], and it never raises
    [SystemExit]. *)
Definition discreta {A : Type} (m : io A) : Prop :=
  ∀ w r w', m w = (r, w') →
            (∀ c, r ≠ Lanza (SystemExit c)) ∧
            casos_anunciados (salida w') = casos_anunciados (salida w).

(** A computation that only consumes lines and only adds to the output. *)
Definition progresa {A : Type} (m : io A) : Prop :=
  ∀ w r w', m w = (r, w') →
            (length (lineas w') <= length (lineas w))%nat ∧
            ∃ extra, salida w' = salida w ++ extra.

(** A computation that never runs out of budget. *)
Definition sin_agotar {A : Type} (m : io A) : Prop :=
  ∀ w w', m w ≠ (Agotado, w').

(** On [w], the computation [m] does not run out of any budget above
    [cota], and answers the same for all of them. *)
Definition estable {A : Type} (cota : nat) (m : nat → io A) (w : mundo)
  : Prop :=
  ∃ r w', r ≠ Agotado ∧ ∀ fuel, (cota < fuel)%nat → m fuel w = (r, w').

(** The character [c] does not occur in [s]. *)
Fixpoint sin_caracter (c : Ascii.ascii) (s : string) : Prop :=
  match s with
  | EmptyString => True
  | String a r => a ≠ c ∧ sin_caracter c r
  end.

(** ** Specification-side notions *)

(** The four conditions of the validator, as a predicate. *)
Definition entrada_valida (estados : Z) (estados_finales : list Z)
    (transiciones : list (list Z)) : Prop :=
  0 < estados ∧
  Forall (fun e => 0 <= e < estados) estados_finales ∧
  len transiciones = estados ∧
  Forall (Forall (fun d => 0 <= d < estados)) transiciones.

(** Entry [(i, j)] of a table, [false] where there is no such entry. *)
Definition celda (tabla : tabla_t) (i j : Z) : bool :=
  (0 <=? i) && (0 <=? j) &&
  match tabla !! Z.to_nat i with
  | Some fila => default false (fila !! Z.to_nat j)
  | None => false
  end.

(** A table built over [n] states: [n] rows of [n] entries. *)
Definition cuadrada (n : Z) (tabla : tabla_t) : Prop :=
  len tabla = n ∧ Forall (fun fila => len fila = n) tabla.

(** Only entries above the diagonal are marked. *)
Definition triangular (tabla : tabla_t) : Prop :=
  ∀ a b, celda tabla a b = true → a < b.

(** Every mark of [t1] is a mark of [t2]. *)
Definition incluida (t1 t2 : tabla_t) : Prop :=
  ∀ a b, celda t1 a b = true → celda t2 a b = true.

(** The pairs visited by [for i in range(n): for j in range(i + 1, n)], in
    the order of the visit. *)
Definition pares (n : Z) : list (Z * Z) :=
  flat_map (fun i => map (pair i) (range (i + 1) n)) (range 0 n).

Definition no_marcado (tabla : tabla_t) (p : Z * Z) : bool :=
  negb (celda tabla (fst p) (snd p)).

(** Order of the pairs: by first component, then by second. *)
Definition orden_lex (p q : Z * Z) : Prop :=
  fst p < fst q ∨ (fst p = fst q ∧ snd p < snd q).

(** Number of pairs still unmarked. *)
Definition pendientes (n : Z) (tabla : tabla_t) : nat :=
  length (filter (fun p => no_marcado tabla p = true) (pares n)).

(** The automaton read off the input: the transition on symbol [a] (a
    column index) exists where row [i] has a column [a]. *)
Definition delta (transiciones : list (list Z)) (i : Z) (a : nat) : option Z :=
  match transiciones !! Z.to_nat i with
  | Some fila => fila !! a
  | None => None
  end.

Fixpoint correr (transiciones : list (list Z)) (i : Z) (w : list nat)
  : option Z :=
  match w with
  | [] => Some i
  | a :: r =>
      match delta transiciones i a with
      | Some p => correr transiciones p r
      | None => None
      end
  end.

(** The string [w] can be read in full from [i] and from [j] (every symbol
    it uses is present in the row of each state passed through) and drives
    them to states of different finality.  A string that one of the two
    states cannot read does not count here. *)
Definition distingue (estados_finales : list Z) (transiciones : list (list Z))
    (w : list nat) (i j : Z) : Prop :=
  ∃ p q, correr transiciones i w = Some p ∧ correr transiciones j w = Some q ∧
         pertenece p estados_finales ≠ pertenece q estados_finales.

(** Some string readable in full from both states tells them apart. *)
Definition distinguibles (estados_finales : list Z)
    (transiciones : list (list Z)) (i j : Z) : Prop :=
  ∃ w, distingue estados_finales transiciones w i j.

(** The string [w] is accepted from state [i]: it can be read in full from
    [i] and leads to a final state. *)
Definition acepta (estados_finales : list Z) (transiciones : list (list Z))
    (i : Z) (w : list nat) : bool :=
  match correr transiciones i w with
  | Some p => pertenece p estados_finales
  | None => false
  end.

(** Myhill-Nerode distinguishability: some string is accepted from one of
    the two states and not from the other. *)
Definition nerode_distinguibles (estados_finales : list Z)
    (transiciones : list (list Z)) (i j : Z) : Prop :=
  ∃ w, acepta estados_finales transiciones i w
       ≠ acepta estados_finales transiciones j w.

(** Some symbol present in both rows leads [i] and [j] to a pair of
    destinations that is marked in [tabla]. *)
Definition dispara (tabla : tabla_t) (transiciones : list (list Z))
    (i j : Z) : Prop :=
  ∃ a p q, delta transiciones i a = Some p ∧ delta transiciones j a = Some q ∧
           celda tabla (Z.min p q) (Z.max p q) = true.

(** [dist m i j]: some string of at most [m] symbols, drawn from the first
    [k] symbols, drives [i] and [j] to states of different finality. *)
Fixpoint dist (estados_finales : list Z) (transiciones : list (list Z))
    (k m : nat) (i j : Z) : bool :=
  match m with
  | O => xorb (pertenece i estados_finales) (pertenece j estados_finales)
  | S m' =>
      dist estados_finales transiciones k m' i j ||
      existsb (fun a =>
                 match delta transiciones i a, delta transiciones j a with
                 | Some p, Some q => dist estados_finales transiciones k m' p q
                 | _, _ => false
                 end) (seq 0 k)
  end.

(** The states below [n] that [dist m] separates from every smaller state:
    the least member of each class of states not separated by strings of at
    most [m] symbols. *)
Definition representantes (estados_finales : list Z)
    (transiciones : list (list Z)) (k m : nat) (n : Z) : list Z :=
  filter (fun i => Forall (fun j => dist estados_finales transiciones k m j i
                                    = true) (range 0 i))
         (range 0 n).

(** * Properties *)

(** ** The error monad *)

Lemma bind_Ok {A B} (m : res A) (k : A → res B) b :
  bind m k = Ok b → ∃ a, m = Ok a ∧ k a = Ok b.
Proof. destruct m; simpl; intros H; try discriminate. eauto. Qed.

Ltac inv_bind H :=
  let a := fresh "v" in
  let E := fresh "E" in
  apply bind_Ok in H; destruct H as (a & E & H).

(** ** Subscripts *)

Lemma indice_en_rango {A} (l : list A) k :
  0 <= k < len l → indice l k = Ok (Z.to_nat k).
Proof.
  intros Hk. unfold indice.
  destruct (0 <=? k) eqn:E1; [|lia].
  destruct (k <? len l) eqn:E2; [reflexivity|lia].
Qed.

Lemma indice_no_neg {A} (l : list A) k n :
  0 <= k → indice l k = Ok n → n = Z.to_nat k ∧ k < len l.
Proof.
  intros Hk. unfold indice.
  destruct (0 <=? k) eqn:E1; [|lia].
  destruct (k <? len l) eqn:E2; simpl.
  - intros [= <-]. lia.
  - destruct (- len l <=? k); simpl; [|discriminate].
    destruct (k <? 0) eqn:E3; [lia|discriminate].
Qed.

Lemma getitem_en_rango {A} (l : list A) k :
  0 <= k < len l → ∃ x, l !! Z.to_nat k = Some x ∧ getitem l k = Ok x.
Proof.
  intros Hk. unfold getitem. rewrite indice_en_rango by done. simpl.
  destruct (lookup_lt_is_Some_2 l (Z.to_nat k)) as [x Hx].
  { unfold len in Hk. lia. }
  exists x. rewrite Hx. done.
Qed.

Lemma getitem_no_neg {A} (l : list A) k x :
  0 <= k → getitem l k = Ok x → l !! Z.to_nat k = Some x ∧ k < len l.
Proof.
  intros Hk H. unfold getitem in H. inv_bind H.
  apply indice_no_neg in E as [-> ?]; [|done].
  destruct (l !! Z.to_nat k); [|discriminate]. by injection H as ->.
Qed.

Lemma setitem_en_rango {A} (l : list A) k x :
  0 <= k < len l → setitem l k x = Ok (<[Z.to_nat k:=x]> l).
Proof. intros Hk. unfold setitem. by rewrite indice_en_rango. Qed.

Lemma setitem_no_neg {A} (l : list A) k x l' :
  0 <= k → setitem l k x = Ok l' → l' = <[Z.to_nat k:=x]> l ∧ k < len l.
Proof.
  intros Hk H. unfold setitem in H. inv_bind H.
  apply indice_no_neg in E as [-> ?]; [|done]. by injection H as <-.
Qed.

Lemma elem_of_range a b x : x ∈ range a b ↔ a <= x < b.
Proof. unfold range. rewrite elem_of_seqZ. lia. Qed.

(** ** Reading and marking table entries *)

Lemma leer_celda tabla i j m :
  0 <= i → 0 <= j → leer tabla i j = Ok m → celda tabla i j = m.
Proof.
  intros Hi Hj H. unfold leer in H. inv_bind H.
  apply getitem_no_neg in E as [E _]; [|done].
  apply getitem_no_neg in H as [H _]; [|done].
  unfold celda. rewrite E, H. simpl.
  destruct (0 <=? i) eqn:?; [|lia]. destruct (0 <=? j) eqn:?; [done|lia].
Qed.

Lemma cuadrada_fila n (tabla : tabla_t) k fila :
  cuadrada n tabla → tabla !! k = Some fila → len fila = n.
Proof. intros [_ Hf] E. by apply (Forall_lookup_1 _ _ _ _ Hf E). Qed.

Lemma leer_total n tabla i j :
  cuadrada n tabla → 0 <= i < n → 0 <= j < n →
  leer tabla i j = Ok (celda tabla i j).
Proof.
  intros Hc Hi Hj. unfold leer.
  destruct (getitem_en_rango tabla i) as (fila & E & ->);
    [destruct Hc; lia|]. simpl.
  assert (len fila = n) as Hl by (by eapply cuadrada_fila).
  destruct (getitem_en_rango fila j) as (m & E' & ->); [lia|].
  f_equal. unfold celda. rewrite E, E'. simpl.
  destruct (0 <=? i) eqn:?; [|lia]. destruct (0 <=? j) eqn:?; [done|lia].
Qed.

Lemma marcar_forma tabla i j tabla' :
  0 <= i → 0 <= j → marcar tabla i j = Ok tabla' →
  ∃ fila, tabla !! Z.to_nat i = Some fila ∧ j < len fila ∧
          tabla' = <[Z.to_nat i := <[Z.to_nat j := true]> fila]> tabla.
Proof.
  intros Hi Hj H. unfold marcar in H. inv_bind H. rename v into fila.
  inv_bind H. rename v into fila'.
  apply getitem_no_neg in E as [E _]; [|done].
  apply setitem_no_neg in E0 as [-> ?]; [|done].
  apply setitem_no_neg in H as [-> ?]; [|done].
  eauto.
Qed.

Lemma marcar_celda tabla i j tabla' :
  0 <= i → 0 <= j → marcar tabla i j = Ok tabla' →
  ∀ a b, celda tabla' a b = ((a =? i) && (b =? j)) || celda tabla a b.
Proof.
  intros Hi Hj H a b.
  destruct (marcar_forma _ _ _ _ Hi Hj H) as (fila & E & Hl & ->).
  unfold celda.
  destruct (0 <=? a) eqn:Ha; simpl; [|destruct (a =? i) eqn:?; [lia|done]].
  destruct (0 <=? b) eqn:Hb; simpl;
    [|destruct (b =? j) eqn:?; [lia|by rewrite andb_false_r]].
  destruct (decide (Z.to_nat a = Z.to_nat i)) as [Hai|Hai].
  - assert (a = i) as -> by lia. rewrite Z.eqb_refl. simpl.
    rewrite list_lookup_insert_eq by (by eapply lookup_lt_Some). rewrite E.
    destruct (decide (Z.to_nat b = Z.to_nat j)) as [Hbj|Hbj].
    + assert (b = j) as -> by lia. rewrite Z.eqb_refl. simpl.
      rewrite list_lookup_insert_eq; [done|]. unfold len in Hl. lia.
    + rewrite list_lookup_insert_ne by done.
      destruct (b =? j) eqn:?; [lia|done].
  - rewrite list_lookup_insert_ne by done.
    destruct (a =? i) eqn:?; [lia|done].
Qed.

Lemma marcar_cuadrada n tabla i j tabla' :
  0 <= i → 0 <= j → marcar tabla i j = Ok tabla' →
  cuadrada n tabla → cuadrada n tabla'.
Proof.
  intros Hi Hj H Hc.
  destruct (marcar_forma _ _ _ _ Hi Hj H) as (fila & E & Hl & ->).
  pose proof (cuadrada_fila _ _ _ _ Hc E) as Hf. destruct Hc as [Hn HF].
  split.
  - unfold len in *. by rewrite length_insert.
  - apply Forall_insert; [done|]. unfold len in *. by rewrite length_insert.
Qed.

Lemma marcar_total n tabla i j :
  cuadrada n tabla → 0 <= i < n → 0 <= j < n →
  ∃ tabla', marcar tabla i j = Ok tabla'.
Proof.
  intros Hc Hi Hj. unfold marcar.
  destruct (getitem_en_rango tabla i) as (fila & E & ->);
    [destruct Hc; lia|]. simpl.
  assert (len fila = n) as Hl by (by eapply cuadrada_fila).
  rewrite setitem_en_rango by lia. simpl.
  rewrite setitem_en_rango by (destruct Hc; lia). eauto.
Qed.

Lemma marcar_incluida tabla i j tabla' :
  0 <= i → 0 <= j → marcar tabla i j = Ok tabla' → incluida tabla tabla'.
Proof.
  intros Hi Hj H a b Hc. rewrite (marcar_celda _ _ _ _ Hi Hj H), Hc.
  apply orb_true_r.
Qed.

Lemma marcar_triangular tabla i j tabla' :
  0 <= i < j → marcar tabla i j = Ok tabla' →
  triangular tabla → triangular tabla'.
Proof.
  intros Hij H Ht a b.
  rewrite (marcar_celda tabla i j tabla' ltac:(lia) ltac:(lia) H).
  intros [[??]%andb_prop|?]%orb_prop; [lia|by apply Ht].
Qed.

Lemma incluida_refl t : incluida t t.
Proof. by intros a b. Qed.

Lemma incluida_trans t1 t2 t3 :
  incluida t1 t2 → incluida t2 t3 → incluida t1 t3.
Proof. intros H1 H2 a b H. by apply H2, H1. Qed.

(** ** The visited pairs and the count of unmarked ones *)

Lemma elem_of_pares n i j : (i, j) ∈ pares n ↔ 0 <= i < j ∧ j < n.
Proof.
  unfold pares. rewrite list_elem_of_In, in_flat_map. split.
  - intros (x & Hx%list_elem_of_In%elem_of_range & Hj%in_map_iff).
    destruct Hj as (y & [= -> ->] & Hy%list_elem_of_In%elem_of_range). lia.
  - intros [Hi Hj]. exists i. split.
    + apply list_elem_of_In, elem_of_range. lia.
    + apply in_map, list_elem_of_In, elem_of_range. lia.
Qed.

Lemma filter_menor {A} (P Q : A → Prop)
    `{!∀ x, Decision (P x)} `{!∀ x, Decision (Q x)} (l : list A) :
  (∀ x, x ∈ l → P x → Q x) →
  (length (filter P l) <= length (filter Q l))%nat.
Proof.
  induction l as [|y r IH]; intros Hpq; [done|].
  rewrite !filter_cons.
  assert (length (filter P r) <= length (filter Q r))%nat as Hr
    by (apply IH; intros x ?; apply Hpq; by right).
  destruct (decide (P y)) as [Hp|Hp].
  - rewrite decide_True by (apply Hpq; [by left|done]). simpl. lia.
  - destruct (decide (Q y)); simpl; lia.
Qed.

Lemma filter_estricto {A} (P Q : A → Prop)
    `{!∀ x, Decision (P x)} `{!∀ x, Decision (Q x)} (l : list A) x0 :
  x0 ∈ l → ¬ P x0 → Q x0 → (∀ x, x ∈ l → P x → Q x) →
  (length (filter P l) < length (filter Q l))%nat.
Proof.
  induction l as [|y r IH]; intros Hin Hn Hq Hpq; [by apply elem_of_nil in Hin|].
  rewrite !filter_cons.
  assert (∀ x, x ∈ r → P x → Q x) as Hpq' by (intros x ?; apply Hpq; by right).
  pose proof (filter_menor P Q r Hpq') as Hle.
  apply elem_of_cons in Hin as [<-|Hin].
  - rewrite decide_False, decide_True by done. simpl. lia.
  - specialize (IH Hin Hn Hq Hpq').
    destruct (decide (P y)) as [Hp|Hp].
    + rewrite decide_True by (apply Hpq; [by left|done]). simpl. lia.
    + destruct (decide (Q y)); simpl; lia.
Qed.

Lemma pendientes_estricto n t1 t2 i j :
  incluida t1 t2 → 0 <= i < j → j < n →
  celda t1 i j = false → celda t2 i j = true →
  (pendientes n t2 < pendientes n t1)%nat.
Proof.
  intros Hinc Hi Hj H1 H2. unfold pendientes.
  apply (filter_estricto _ _ _ (i, j)).
  - by apply elem_of_pares.
  - unfold no_marcado. simpl. by rewrite H2.
  - unfold no_marcado. simpl. by rewrite H1.
  - intros [a b] _. unfold no_marcado. simpl.
    destruct (celda t1 a b) eqn:E; [|done]. by rewrite (Hinc _ _ E).
Qed.

(** ** Distinguishing strings *)

Lemma distingue_sym finales trans w i j :
  distingue finales trans w i j → distingue finales trans w j i.
Proof. intros (p & q & Hp & Hq & Hne). exists q, p. by split_and!. Qed.

Lemma distinguibles_sym finales trans i j :
  distinguibles finales trans i j → distinguibles finales trans j i.
Proof. intros [w Hw]. exists w. by apply distingue_sym. Qed.

Lemma distinguibles_paso finales trans a i j p q :
  delta trans i a = Some p → delta trans j a = Some q →
  distinguibles finales trans p q → distinguibles finales trans i j.
Proof.
  intros Dp Dq (w & p' & q' & Hp & Hq & Hne). exists (a :: w), p', q'.
  simpl. rewrite Dp, Dq. by split_and!.
Qed.

Lemma dispara_distinguibles finales trans T i j :
  (∀ a b, celda T a b = true → distinguibles finales trans a b) →
  dispara T trans i j → distinguibles finales trans i j.
Proof.
  intros Hs (a & p & q & Dp & Dq & Hm). apply Hs in Hm.
  apply (distinguibles_paso _ _ a i j p q Dp Dq).
  destruct (Z.le_ge_cases p q).
  - by rewrite Z.min_l, Z.max_r in Hm by lia.
  - rewrite Z.min_r, Z.max_l in Hm by lia. by apply distinguibles_sym.
Qed.

(** ** Loop rules *)

Lemma for_inv {S} (I : S → Prop) l (cuerpo : Z → S → res S) s s' :
  (∀ x t t', x ∈ l → I t → cuerpo x t = Ok t' → I t') →
  I s → for_ l cuerpo s = Ok s' → I s'.
Proof.
  revert s. induction l as [|x r IH]; simpl; intros s Hc Hs H.
  - by injection H as <-.
  - inv_bind H. apply (IH v); [| |done].
    + intros y t t' Hy. apply Hc. by right.
    + eapply Hc; [by left|done..].
Qed.

Lemma for_total {S} (I : S → Prop) l (cuerpo : Z → S → res S) s :
  (∀ x t, x ∈ l → I t → ∃ t', cuerpo x t = Ok t' ∧ I t') →
  I s → ∃ s', for_ l cuerpo s = Ok s' ∧ I s'.
Proof.
  revert s. induction l as [|x r IH]; simpl; intros s Hc Hs.
  - eauto.
  - destruct (Hc x s) as (t & -> & Ht); [by left|done|]. simpl.
    apply IH; [|done]. intros y t' Hy. apply Hc. by right.
Qed.

(** The nest [for i in range(n): for j in range(i + 1, n)]. *)
Lemma for_pares_inv {S} (I : S → Prop) n (cuerpo : Z → Z → S → res S) s s' :
  (∀ i j t t', 0 <= i < j → j < n → I t → cuerpo i j t = Ok t' → I t') →
  I s →
  for_ (range 0 n) (fun i => for_ (range (i + 1) n) (cuerpo i)) s = Ok s' →
  I s'.
Proof.
  intros Hc. apply for_inv. intros i t t' Hi%elem_of_range Ht.
  apply for_inv; [|done]. intros j u u' Hj%elem_of_range. apply Hc; lia.
Qed.

Lemma for_pares_total {S} (I : S → Prop) n (cuerpo : Z → Z → S → res S) s :
  (∀ i j t, 0 <= i < j → j < n → I t → ∃ t', cuerpo i j t = Ok t' ∧ I t') →
  I s →
  ∃ s', for_ (range 0 n) (fun i => for_ (range (i + 1) n) (cuerpo i)) s
        = Ok s' ∧ I s'.
Proof.
  intros Hc. apply for_total. intros i t Hi%elem_of_range Ht.
  apply for_total; [|done]. intros j u Hj%elem_of_range. apply Hc; lia.
Qed.

(** A property established for each element by its own iteration and kept
    by the others holds for every element at the end; [I] is an invariant
    the iterations may rely on. *)
Lemma for_post {S} (I : S → Prop) (Q : Z → S → Prop) l
    (cuerpo : Z → S → res S) s s' :
  (∀ x t t', x ∈ l → I t → cuerpo x t = Ok t' → I t' ∧ Q x t') →
  (∀ x y t t', y ∈ l → I t → Q x t → cuerpo y t = Ok t' → Q x t') →
  I s → for_ l cuerpo s = Ok s' → I s' ∧ ∀ x, x ∈ l → Q x s'.
Proof.
  revert s. induction l as [|y r IH]; simpl; intros s Hq Hk Hs H.
  - injection H as <-. split; [done|]. by intros x ?%elem_of_nil.
  - inv_bind H. destruct (Hq y s v) as [Hv Hy]; [by left|done..|].
    destruct (IH v) as [Hs' Hr]; [| |done|done|].
    + intros z t t' Hz. apply Hq. by right.
    + intros z z' t t' Hz. apply Hk. by right.
    + split; [done|]. intros x [->|Hx]%elem_of_cons; [|by apply Hr].
      apply (for_inv (fun t => I t ∧ Q y t) r cuerpo v s'); [|done|done].
      intros z t t' Hz [Ht Hqt] Ez. split.
      * apply (Hq z t t'); [by right|done..].
      * apply (Hk y z t t'); [by right|done..].
Qed.

Lemma for_pares_post {S} (I : S → Prop) (Q : Z → Z → S → Prop) n
    (cuerpo : Z → Z → S → res S) s s' :
  (∀ i j t t', 0 <= i < j → j < n → I t → cuerpo i j t = Ok t' →
               I t' ∧ Q i j t') →
  (∀ i j i' j' t t', 0 <= i' < j' → j' < n → I t → Q i j t →
                     cuerpo i' j' t = Ok t' → Q i j t') →
  I s →
  for_ (range 0 n) (fun i => for_ (range (i + 1) n) (cuerpo i)) s = Ok s' →
  I s' ∧ ∀ i j, 0 <= i < j → j < n → Q i j s'.
Proof.
  intros Hq Hk Hs H.
  assert (∀ i j i' t t', 0 <= i' → I t → Q i j t →
            for_ (range (i' + 1) n) (cuerpo i') t = Ok t' → I t' ∧ Q i j t')
    as Hfila.
  { intros i j i' t t' Hi' Ht Hqt.
    apply (for_inv (fun u => I u ∧ Q i j u)); [|done].
    intros j' u u' Hj'%elem_of_range [Hu Hqu] E. split.
    - apply (Hq i' j' u u'); [lia..|done|done].
    - apply (Hk i j i' j' u u'); [lia..|done|done|done]. }
  destruct (for_post I (fun i s => ∀ j, 0 <= i < j → j < n → Q i j s)
              (range 0 n) (fun i => for_ (range (i + 1) n) (cuerpo i)) s s')
    as [Hs' Hall]; [| |done|done|].
  - intros x t t' Hx%elem_of_range Ht E.
    destruct (for_post I (Q x) (range (x + 1) n) (cuerpo x) t t')
      as [Ht' Hrow]; [| |done|done|].
    + intros y u u' Hy%elem_of_range. apply Hq; lia.
    + intros y y' u u' Hy%elem_of_range. apply Hk; lia.
    + split; [done|]. intros j Hi Hj. apply Hrow, elem_of_range. lia.
  - intros x y t t' Hy%elem_of_range Ht Hx E j Hi Hj.
    apply (Hfila x j y t t'); [lia|done|by apply Hx|done].
  - split; [done|]. intros i j Hi Hj. apply Hall; [|done..].
    apply elem_of_range. lia.
Qed.

(** A loop over a state [(t, flag)] whose body can only raise the flag and
    leaves [t] alone while the flag is down: if the flag is down at the end,
    every iteration ran on the initial state and left it as it was. *)
Lemma for_sin_cambio {T} (P : Z → T → Prop) l
    (cuerpo : Z → T * bool → res (T * bool)) t c t' :
  (∀ x u d u', x ∈ l → cuerpo x (u, d) = Ok (u', false) →
               d = false ∧ u' = u ∧ P x u) →
  for_ l cuerpo (t, c) = Ok (t', false) →
  c = false ∧ t' = t ∧ ∀ x, x ∈ l → P x t.
Proof.
  revert t c. induction l as [|x r IH]; simpl; intros t c Hc H.
  - injection H as <- ->. split_and!; [done..|]. by intros x ?%elem_of_nil.
  - inv_bind H. destruct v as [u d].
    apply IH in H as (-> & -> & Hr); [|intros y ????; apply Hc; by right].
    apply Hc in E as (-> & -> & Hx); [|by left].
    split_and!; [done..|]. intros y [->|?]%elem_of_cons; auto.
Qed.

(** ** The propagation step on a validated input *)

Section propagacion.
Variables (estados : Z) (finales : list Z) (trans : list (list Z)).
Hypothesis Hval : entrada_valida estados finales trans.

Lemma delta_rango i a p : delta trans i a = Some p → 0 <= p < estados.
Proof.
  unfold delta. destruct (trans !! Z.to_nat i) as [fila|] eqn:E; [|done].
  intros H. destruct Hval as (_ & _ & _ & HF).
  pose proof (Forall_lookup_1 _ _ _ _ HF E) as Hfila.
  apply (Forall_lookup_1 _ _ _ _ Hfila H).
Qed.

Lemma fila_total i :
  0 <= i < estados →
  ∃ fila, trans !! Z.to_nat i = Some fila ∧ getitem trans i = Ok fila.
Proof.
  intros Hi. apply getitem_en_rango. destruct Hval as (_ & _ & -> & _). lia.
Qed.

Lemma cuerpo_simbolo_spec i j a T c ctl T' c' :
  0 <= i → 0 <= j → 0 <= a →
  cuerpo_simbolo trans i j a (T, c) = Ok (ctl, (T', c')) →
  (ctl = Continue ∧ T' = T ∧ c' = c ∧
   ∀ p q, delta trans i (Z.to_nat a) = Some p →
          delta trans j (Z.to_nat a) = Some q →
          celda T (Z.min p q) (Z.max p q) = false)
  ∨ (ctl = Break ∧ c' = true ∧ marcar T i j = Ok T' ∧
     ∃ p q, delta trans i (Z.to_nat a) = Some p ∧
            delta trans j (Z.to_nat a) = Some q ∧
            celda T (Z.min p q) (Z.max p q) = true).
Proof.
  intros Hi Hj Ha H. unfold cuerpo_simbolo in H.
  inv_bind H. rename v into fila_j.
  apply getitem_no_neg in E as [Ej _]; [|done].
  rewrite Z.geb_leb in H. destruct (Z.leb_spec (len fila_j) a) as [Hl|Hl].
  { injection H as <- <- <-. left. split_and!; [done..|].
    intros p q _. unfold delta. rewrite Ej. intros Hq.
    apply lookup_lt_Some in Hq. unfold len in Hl. lia. }
  inv_bind H. rename v into fila_i.
  apply getitem_no_neg in E as [Ei _]; [|done].
  inv_bind H. rename v into p. apply getitem_no_neg in E as [Ep _]; [|done].
  inv_bind H. rename v into q. apply getitem_no_neg in E as [Eq _]; [|done].
  assert (delta trans i (Z.to_nat a) = Some p) as Dp
    by (unfold delta; by rewrite Ei).
  assert (delta trans j (Z.to_nat a) = Some q) as Dq
    by (unfold delta; by rewrite Ej).
  pose proof (delta_rango _ _ _ Dp). pose proof (delta_rango _ _ _ Dq).
  assert (∃ m, leer T (Z.min p q) (Z.max p q) = Ok m ∧
               (if m
                then do tabla' <- marcar T i j; Ok (Break, (tabla', true))
                else Ok (Continue, (T, c))) = Ok (ctl, (T', c')))
    as (m & Hm & Hr).
  { rewrite Z.gtb_ltb in H. destruct (Z.ltb_spec q p).
    - rewrite Z.min_r, Z.max_l by lia. inv_bind H. eauto.
    - rewrite Z.min_l, Z.max_r by lia. inv_bind H. eauto. }
  apply leer_celda in Hm; [|lia..]. destruct m.
  - right. inv_bind Hr. injection Hr as <- <- <-.
    split_and!; [done..|]. by exists p, q.
  - left. injection Hr as <- <- <-. split_and!; [done..|].
    intros p' q'. rewrite Dp, Dq. by intros [= <-] [= <-].
Qed.

Lemma simbolos_spec i j l T c T' c' :
  0 <= i → 0 <= j → Forall (fun a => 0 <= a) l →
  for_break l (cuerpo_simbolo trans i j) (T, c) = Ok (T', c') →
  (T' = T ∧ c' = c ∧
   ∀ a p q, a ∈ l → delta trans i (Z.to_nat a) = Some p →
            delta trans j (Z.to_nat a) = Some q →
            celda T (Z.min p q) (Z.max p q) = false)
  ∨ (c' = true ∧ marcar T i j = Ok T' ∧ dispara T trans i j).
Proof.
  intros Hi Hj Hl. induction Hl as [|a r Ha Hr IH]; simpl; intros H.
  - injection H as <- <-. left. split_and!; [done..|].
    by intros a p q ?%elem_of_nil.
  - inv_bind H. destruct v as [ctl [T1 c1]].
    apply cuerpo_simbolo_spec in E
      as [(-> & -> & -> & Hno)|(-> & -> & ? & p & q & ?)];
      [|right; injection H as <- <-; split_and!; [done..|];
        by exists (Z.to_nat a), p, q|done..].
    apply IH in H as [(-> & -> & Hno')|?]; [left|by right].
    split_and!; [done..|]. intros b p q [->|?]%elem_of_cons; eauto.
Qed.

Lemma cuerpo_par_spec i j T c T' c' :
  0 <= i → 0 <= j →
  cuerpo_par trans i j (T, c) = Ok (T', c') →
  (T' = T ∧ c' = c ∧ (celda T i j = false → ¬ dispara T trans i j))
  ∨ (c' = true ∧ celda T i j = false ∧ marcar T i j = Ok T' ∧
     dispara T trans i j).
Proof.
  intros Hi Hj H. unfold cuerpo_par in H. simpl in H. inv_bind H.
  apply leer_celda in E; [|done..]. subst v.
  destruct (celda T i j) eqn:Hc; simpl in H.
  { injection H as <- <-. left. by split_and!. }
  inv_bind H. rename v into fila_i.
  apply getitem_no_neg in E as [Ei _]; [|done].
  apply simbolos_spec in H as [(-> & -> & Hno)|(-> & ? & ?)]; [|by right|done..|].
  - left. split_and!; [done..|]. intros _ (a & p & q & Dp & Dq & Hm).
    assert (Z.of_nat a ∈ range 0 (len fila_i)) as Hin.
    { apply elem_of_range. unfold delta in Dp. rewrite Ei in Dp.
      apply lookup_lt_Some in Dp. unfold len. lia. }
    specialize (Hno (Z.of_nat a) p q Hin). rewrite Nat2Z.id in Hno.
    rewrite Hno in Hm; done.
  - apply Forall_forall. intros a Ha%elem_of_range. lia.
Qed.

(** *** No subscript is out of range *)

Lemma cuerpo_simbolo_total i j a T c fila_i :
  cuadrada estados T → 0 <= i < estados → 0 <= j < estados →
  trans !! Z.to_nat i = Some fila_i → 0 <= a < len fila_i →
  ∃ r, cuerpo_simbolo trans i j a (T, c) = Ok r.
Proof.
  intros Hc Hi Hj Ei Ha. unfold cuerpo_simbolo.
  destruct (fila_total j Hj) as (fila_j & Ej & ->). simpl.
  rewrite Z.geb_leb. destruct (Z.leb_spec (len fila_j) a) as [Hl|Hl]; [eauto|].
  destruct (fila_total i Hi) as (fila_i' & Ei' & ->). simpl.
  assert (fila_i' = fila_i) as -> by congruence.
  destruct (getitem_en_rango fila_i a) as (p & Ep & ->); [lia|]. simpl.
  destruct (getitem_en_rango fila_j a) as (q & Eq & ->); [lia|]. simpl.
  assert (0 <= p < estados) as Hp
    by (apply (delta_rango i (Z.to_nat a)); unfold delta; by rewrite Ei).
  assert (0 <= q < estados) as Hq
    by (apply (delta_rango j (Z.to_nat a)); unfold delta; by rewrite Ej).
  destruct (marcar_total estados T i j Hc Hi Hj) as (T' & HT').
  destruct (p >? q).
  - rewrite (leer_total estados) by done. simpl.
    destruct (celda T q p); [rewrite HT'; simpl|]; eauto.
  - rewrite (leer_total estados) by done. simpl.
    destruct (celda T p q); [rewrite HT'; simpl|]; eauto.
Qed.

Lemma simbolos_total i j l T c fila_i :
  cuadrada estados T → 0 <= i < estados → 0 <= j < estados →
  trans !! Z.to_nat i = Some fila_i →
  Forall (fun a => 0 <= a < len fila_i) l →
  ∃ r, for_break l (cuerpo_simbolo trans i j) (T, c) = Ok r.
Proof.
  intros Hc Hi Hj Ei Hl. revert c.
  induction Hl as [|a r Ha Hr IH]; cbn [for_break]; intros c; [eauto|].
  destruct (cuerpo_simbolo_total i j a T c fila_i) as ([ctl [T1 c1]] & E);
    [done..|].
  rewrite E. cbn [bind].
  apply cuerpo_simbolo_spec in E as [(-> & -> & -> & _)|(-> & _)];
    [apply IH|eauto|lia..].
Qed.

Lemma cuerpo_par_total i j T c :
  cuadrada estados T → 0 <= i < estados → 0 <= j < estados →
  ∃ r, cuerpo_par trans i j (T, c) = Ok r.
Proof.
  intros Hc Hi Hj. unfold cuerpo_par. simpl.
  rewrite (leer_total estados) by done. simpl.
  destruct (celda T i j); simpl; [eauto|].
  destruct (fila_total i Hi) as (fila_i & Ei & ->). simpl.
  apply (simbolos_total i j _ T c fila_i); [done..|].
  apply Forall_forall. by intros a Ha%elem_of_range.
Qed.

Lemma cuerpo_par_cuadrada i j T c T' c' :
  0 <= i → 0 <= j → cuerpo_par trans i j (T, c) = Ok (T', c') →
  cuadrada estados T → cuadrada estados T'.
Proof.
  intros Hi Hj H Hc.
  apply cuerpo_par_spec in H as [(-> & _)|(_ & _ & H & _)]; [done| |done..].
  exact (marcar_cuadrada _ _ _ _ _ Hi Hj H Hc).
Qed.

Lemma pasada_total T :
  cuadrada estados T →
  ∃ T' c, pasada estados trans T = Ok (T', c) ∧ cuadrada estados T'.
Proof.
  intros Hc. unfold pasada.
  destruct (for_pares_total (fun s => cuadrada estados (fst s)) estados
              (cuerpo_par trans) (T, false)) as ([T' c] & H & Hc');
    [|done|by exists T', c].
  intros i j [T1 c1] Hi Hj Hc1. simpl in Hc1.
  destruct (cuerpo_par_total i j T1 c1) as ([T2 c2] & E); [done|lia..|].
  exists (T2, c2). split; [done|]. simpl.
  eapply cuerpo_par_cuadrada in E; [done|lia..|done].
Qed.

(** *** What a pass does to the table *)

Lemma pasada_incluida T T' c :
  pasada estados trans T = Ok (T', c) → incluida T T'.
Proof.
  unfold pasada. intros H.
  apply (for_pares_inv (fun s => incluida T (fst s))) in H;
    [done| |apply incluida_refl].
  intros i j [T1 c1] [T2 c2] Hi Hj Hinc E. simpl in *.
  apply cuerpo_par_spec in E as [(-> & _)|(_ & _ & E & _)]; [done| |lia..].
  eapply incluida_trans; [done|]. eapply marcar_incluida; [| |done]; lia.
Qed.

Lemma pasada_triangular T T' c :
  pasada estados trans T = Ok (T', c) → triangular T → triangular T'.
Proof.
  unfold pasada. intros H Ht.
  apply (for_pares_inv (fun s => triangular (fst s))) in H; [done| |done].
  intros i j [T1 c1] [T2 c2] Hi Hj Ht1 E. simpl in *.
  apply cuerpo_par_spec in E as [(-> & _)|(_ & _ & E & _)]; [done| |lia..].
  eapply marcar_triangular; [|done..]. lia.
Qed.

Lemma pasada_correcta T T' c :
  pasada estados trans T = Ok (T', c) →
  (∀ a b, celda T a b = true → distinguibles finales trans a b) →
  ∀ a b, celda T' a b = true → distinguibles finales trans a b.
Proof.
  unfold pasada. intros H Hs.
  apply (for_pares_inv (fun s => ∀ a b, celda (fst s) a b = true →
            distinguibles finales trans a b) estados (cuerpo_par trans)
           (T, false) (T', c)); [|done..].
  intros i j [T1 c1] [T2 c2] Hi Hj Hs1 E. simpl in *.
  apply cuerpo_par_spec in E as [(-> & _)|(_ & _ & E & Hd)]; [done| |lia..].
  intros a b. rewrite (marcar_celda T1 i j T2 ltac:(lia) ltac:(lia) E).
  intros [[->%Z.eqb_eq ->%Z.eqb_eq]%andb_prop|?]%orb_prop; [|by apply Hs1].
  by eapply dispara_distinguibles.
Qed.

(** A pass that reports no change has left the table as it was, and the
    table is closed under the propagation rule. *)
Lemma pasada_sin_cambio T T' :
  pasada estados trans T = Ok (T', false) →
  T' = T ∧
  ∀ i j, 0 <= i < j → j < estados → celda T i j = false →
         ¬ dispara T trans i j.
Proof.
  unfold pasada. intros H.
  apply (for_sin_cambio (fun i t => ∀ j, j ∈ range (i + 1) estados →
            celda t i j = false → ¬ dispara t trans i j)) in H
    as (_ & -> & HP).
  - split; [done|]. intros i j Hi Hj. apply HP; apply elem_of_range; lia.
  - intros i u d u' Hi%elem_of_range.
    apply (for_sin_cambio (fun j t => celda t i j = false →
                                      ¬ dispara t trans i j)).
    intros j v e v' Hj%elem_of_range E.
    apply cuerpo_par_spec in E as [(-> & -> & ?)|(? & _)]; [done|done|lia..].
Qed.

(** A pass that reports a change has marked a pair that was unmarked. *)
Lemma pasada_cambio T T' :
  pasada estados trans T = Ok (T', true) →
  incluida T T' ∧
  ∃ i j, (0 <= i < j ∧ j < estados) ∧
         celda T i j = false ∧ celda T' i j = true.
Proof.
  unfold pasada. intros H.
  apply (for_pares_inv (fun s => incluida T (fst s) ∧
           (snd s = true → ∃ i j, (0 <= i < j ∧ j < estados) ∧
              celda T i j = false ∧ celda (fst s) i j = true))) in H.
  - destruct H as (Hinc & Hw). split; [done|]. by apply Hw.
  - intros i j [T1 c1] [T2 c2] Hi Hj [Hinc Hw] E. simpl in *.
    apply cuerpo_par_spec in E as [(-> & -> & _)|(-> & Hc & E & _)];
      [done| |lia..].
    pose proof (marcar_incluida T1 i j T2 ltac:(lia) ltac:(lia) E) as Hinc'.
    split; [by eapply incluida_trans|]. intros _. exists i, j.
    split_and!; [lia..| |].
    + destruct (celda T i j) eqn:E1; [|done]. by rewrite (Hinc _ _ E1) in Hc.
    + rewrite (marcar_celda T1 i j T2 ltac:(lia) ltac:(lia) E).
      by rewrite !Z.eqb_refl.
  - split; [apply incluida_refl|done].
Qed.

Lemma pasada_progreso T T' :
  pasada estados trans T = Ok (T', true) →
  (pendientes estados T' < pendientes estados T)%nat.
Proof.
  intros (Hinc & i & j & [Hi Hj] & H1 & H2)%pasada_cambio.
  by eapply pendientes_estricto.
Qed.

(** *** The base case *)

Lemma tabla_inicial_cuadrada : cuadrada estados (tabla_inicial estados).
Proof.
  destruct Hval as (Hpos & _). unfold cuadrada, tabla_inicial, len. split.
  - rewrite length_replicate. lia.
  - apply Forall_replicate. rewrite length_replicate. lia.
Qed.

Lemma cuerpo_base_spec i j T T' :
  cuerpo_base finales i j T = Ok T' →
  (T' = T ∧ pertenece i finales = pertenece j finales)
  ∨ (marcar T i j = Ok T' ∧ pertenece i finales ≠ pertenece j finales).
Proof.
  unfold cuerpo_base.
  destruct (pertenece i finales), (pertenece j finales); simpl; intros H;
    try (by right); left; by injection H as <-.
Qed.

Lemma paso_base_total T :
  cuadrada estados T →
  ∃ T', paso_base estados finales T = Ok T' ∧ cuadrada estados T'.
Proof.
  intros Hc. unfold paso_base.
  apply (for_pares_total (cuadrada estados)); [|done].
  intros i j T1 Hi Hj Hc1. unfold cuerpo_base.
  destruct (negb _); [|eauto].
  destruct (marcar_total estados T1 i j) as (T2 & E); [done|lia..|].
  exists T2. split; [done|].
  eapply marcar_cuadrada; [| |done..]; lia.
Qed.

Lemma paso_base_incluida T T' :
  paso_base estados finales T = Ok T' → incluida T T'.
Proof.
  unfold paso_base. intros H.
  apply (for_pares_inv (incluida T)) in H; [done| |apply incluida_refl].
  intros i j T1 T2 Hi Hj Hinc [[-> _]|[E _]]%cuerpo_base_spec; [done|].
  eapply incluida_trans; [done|]. eapply marcar_incluida; [| |done]; lia.
Qed.

Lemma paso_base_triangular T T' :
  paso_base estados finales T = Ok T' → triangular T → triangular T'.
Proof.
  unfold paso_base. intros H Ht.
  apply (for_pares_inv triangular) in H; [done| |done].
  intros i j T1 T2 Hi Hj Ht1 [[-> _]|[E _]]%cuerpo_base_spec; [done|].
  eapply marcar_triangular; [|done..]. lia.
Qed.

Lemma paso_base_correcta T T' :
  paso_base estados finales T = Ok T' →
  (∀ a b, celda T a b = true → distinguibles finales trans a b) →
  ∀ a b, celda T' a b = true → distinguibles finales trans a b.
Proof.
  unfold paso_base. intros H Hs.
  apply (for_pares_inv (fun t => ∀ a b, celda t a b = true →
            distinguibles finales trans a b) estados (cuerpo_base finales)
           T T'); [|done..].
  intros i j T1 T2 Hi Hj Hs1 [[-> _]|[E Hne]]%cuerpo_base_spec; [done|].
  intros a b. rewrite (marcar_celda T1 i j T2 ltac:(lia) ltac:(lia) E).
  intros [[->%Z.eqb_eq ->%Z.eqb_eq]%andb_prop|?]%orb_prop; [|by apply Hs1].
  exists [], i, j. by split_and!.
Qed.

Lemma paso_base_marca T T' i j :
  paso_base estados finales T = Ok T' →
  0 <= i < j → j < estados →
  pertenece i finales ≠ pertenece j finales → celda T' i j = true.
Proof.
  unfold paso_base. intros H.
  apply (for_pares_post (fun _ => True) (fun i j t =>
            pertenece i finales ≠ pertenece j finales →
            celda t i j = true) estados (cuerpo_base finales) T T');
    [| |done|done].
  - intros a b T1 T2 Ha Hb _ [[_ ?]|[E _]]%cuerpo_base_spec; [done|].
    split; [done|]. intros _.
    rewrite (marcar_celda T1 a b T2 ltac:(lia) ltac:(lia) E).
    by rewrite !Z.eqb_refl.
  - intros a b a' b' T1 T2 Ha Hb _ Hq [[-> _]|[E _]]%cuerpo_base_spec;
      [done|].
    intros Hne. eapply marcar_incluida; [| |done|by apply Hq]; lia.
Qed.

(** *** The [while] loop *)

Lemma mientras_mono fuel fuel' T it r :
  mientras fuel estados trans T it = Ok r → (fuel <= fuel')%nat →
  mientras fuel' estados trans T it = Ok r.
Proof.
  revert fuel' T it. induction fuel as [|f IH]; intros fuel' T it H Hle;
    [done|].
  destruct fuel' as [|f']; [lia|]. simpl in *.
  destruct (pasada estados trans T) as [[T1 c]| |]; simpl in *; try done.
  destruct c; [|done]. apply IH; [done|lia].
Qed.

Lemma mientras_spec fuel T it :
  cuadrada estados T → (pendientes estados T < fuel)%nat →
  ∃ T' it',
    mientras fuel estados trans T it = Ok (T', it') ∧
    cuadrada estados T' ∧ incluida T T' ∧
    (triangular T → triangular T') ∧
    ((∀ a b, celda T a b = true → distinguibles finales trans a b) →
     ∀ a b, celda T' a b = true → distinguibles finales trans a b) ∧
    (∀ i j, 0 <= i < j → j < estados → celda T' i j = false →
            ¬ dispara T' trans i j) ∧
    pasada estados trans T' = Ok (T', false) ∧
    it + 1 <= it' <= it + 1 + Z.of_nat (pendientes estados T).
Proof.
  revert T it. induction fuel as [|f IH]; intros T it Hc Hf; [lia|].
  simpl. destruct (pasada_total T Hc) as (T1 & c & E & Hc1).
  rewrite E. simpl. destruct c.
  - pose proof (pasada_progreso _ _ E) as Hp.
    destruct (IH T1 (it + 1) Hc1)
      as (T' & it' & -> & ? & ? & Ht & Hs & ? & ? & ?); [lia|].
    exists T', it'.
    refine (conj eq_refl (conj _ (conj _ (conj _ (conj _ (conj _
             (conj _ _)))))));
      [done| | | |done|done|lia].
    + eapply incluida_trans; [by eapply pasada_incluida|done].
    + intros ?. apply Ht. by eapply pasada_triangular.
    + intros ?. apply Hs. by eapply pasada_correcta.
  - pose proof E as E'. apply pasada_sin_cambio in E as [-> Hcerr].
    exists T, (it + 1).
    refine (conj eq_refl (conj _ (conj _ (conj _ (conj _ (conj _
             (conj _ _)))))));
      [done|apply incluida_refl|done|done|done|done|lia].
Qed.

(** *** The whole construction *)

(** A table that holds the base case and is closed under the propagation
    rule marks every pair that some string distinguishes. *)
Lemma cerrada_completa T :
  (∀ i j, 0 <= i < j → j < estados →
          pertenece i finales ≠ pertenece j finales → celda T i j = true) →
  (∀ i j, 0 <= i < j → j < estados → celda T i j = false →
          ¬ dispara T trans i j) →
  ∀ w i j, 0 <= i < estados → 0 <= j < estados →
           distingue finales trans w i j →
           celda T (Z.min i j) (Z.max i j) = true.
Proof.
  intros Hbase Hcerr w.
  induction w as [|a r IH]; intros i j Hi Hj (p' & q' & Hp & Hq & Hne);
    simpl in Hp, Hq.
  - injection Hp as <-. injection Hq as <-.
    assert (i ≠ j) by (intros ->; done).
    apply Hbase; [lia..|].
    destruct (Z.le_ge_cases i j).
    + by rewrite Z.min_l, Z.max_r by lia.
    + rewrite Z.min_r, Z.max_l by lia. congruence.
  - destruct (delta trans i a) as [p|] eqn:Dp; [|done].
    destruct (delta trans j a) as [q|] eqn:Dq; [|done].
    assert (i ≠ j) by (intros ->; congruence).
    assert (celda T (Z.min p q) (Z.max p q) = true) as Hm.
    { apply IH; [by eapply delta_rango..|]. by exists p', q'. }
    destruct (celda T (Z.min i j) (Z.max i j)) eqn:E; [done|].
    apply Hcerr in E; [|lia..]. destruct E.
    destruct (Z.le_ge_cases i j).
    + rewrite Z.min_l, Z.max_r by lia. by exists a, p, q.
    + rewrite Z.min_r, Z.max_l by lia. exists a, q, p.
      by rewrite Z.min_comm, Z.max_comm.
Qed.

Lemma pendientes_pares T :
  (pendientes estados T <= length (pares estados))%nat.
Proof. apply length_filter. Qed.

Lemma tabla_inicial_celda a b : celda (tabla_inicial estados) a b = false.
Proof.
  unfold celda, tabla_inicial.
  destruct (_ !! Z.to_nat a) as [fila|] eqn:E; [|by rewrite andb_false_r].
  apply lookup_replicate in E as [-> _].
  destruct (_ !! Z.to_nat b) as [m|] eqn:E'; [|by rewrite andb_false_r].
  apply lookup_replicate in E' as [-> _]. by rewrite andb_false_r.
Qed.

Lemma crear_tabla_spec :
  ∃ T0 T it,
    paso_base estados finales (tabla_inicial estados) = Ok T0 ∧
    (∀ fuel, (pendientes estados T0 < fuel)%nat →
             crear_tabla_iteraciones fuel estados finales trans
             = Ok (T, it)) ∧
    cuadrada estados T0 ∧ cuadrada estados T ∧ incluida T0 T ∧
    triangular T ∧
    (∀ a b, celda T a b = true → distinguibles finales trans a b) ∧
    (∀ i j, 0 <= i < j → j < estados →
            pertenece i finales ≠ pertenece j finales →
            celda T0 i j = true) ∧
    (∀ i j, 0 <= i < j → j < estados → celda T i j = false →
            ¬ dispara T trans i j) ∧
    1 <= it <= 1 + Z.of_nat (pendientes estados T0) ∧
    pasada estados trans T = Ok (T, false).
Proof.
  destruct (paso_base_total _ tabla_inicial_cuadrada) as (T0 & E0 & Hc0).
  destruct (mientras_spec (S (pendientes estados T0)) T0 0 Hc0)
    as (T & it & E & Hc & Hinc & Ht & Hs & Hcerr & Hult & Hit); [lia|].
  assert (triangular T0) as Ht0.
  { refine (paso_base_triangular _ _ E0 _). intros a b.
    by rewrite tabla_inicial_celda. }
  exists T0, T, it.
  refine (conj E0 (conj _ (conj Hc0 (conj Hc (conj Hinc (conj (Ht Ht0)
           (conj _ (conj _ (conj Hcerr _))))))))).
  - intros fuel Hf. unfold crear_tabla_iteraciones. rewrite E0. simpl.
    apply (mientras_mono _ _ _ _ _ E). lia.
  - apply Hs. refine (paso_base_correcta _ _ E0 _). intros a b.
    by rewrite tabla_inicial_celda.
  - intros i j. apply (paso_base_marca _ _ i j E0).
  - split; [lia|done].
Qed.

End propagacion.

Lemma crear_tabla_iteraciones_mono fuel fuel' estados finales trans r :
  crear_tabla_iteraciones fuel estados finales trans = Ok r →
  (fuel <= fuel')%nat →
  crear_tabla_iteraciones fuel' estados finales trans = Ok r.
Proof.
  unfold crear_tabla_iteraciones. intros H Hle. inv_bind H. rewrite E. simpl.
  by eapply mientras_mono.
Qed.

(** The result does not depend on the budget, once the budget suffices. *)
Lemma crear_tabla_iteraciones_det f1 f2 estados finales trans r1 r2 :
  crear_tabla_iteraciones f1 estados finales trans = Ok r1 →
  crear_tabla_iteraciones f2 estados finales trans = Ok r2 →
  r1 = r2.
Proof.
  intros H1 H2.
  apply (crear_tabla_iteraciones_mono _ (f1 `max` f2)) in H1; [|lia].
  apply (crear_tabla_iteraciones_mono _ (f1 `max` f2)) in H2; [|lia].
  congruence.
Qed.

(** ** The validator *)

Lemma validar_finales_None estados fs :
  validar_finales estados fs = None ↔ Forall (fun e => 0 <= e < estados) fs.
Proof.
  induction fs as [|e r IH]; simpl; [by split|].
  rewrite Forall_cons, <- IH, Z.geb_leb.
  destruct (Z.ltb_spec e 0), (Z.leb_spec estados e); simpl;
    (split; [first [discriminate|intros ?; split; [lia|done]]
            |intros [? ?]; first [lia|done]]).
Qed.

Lemma validar_fila_None estados i j fila :
  validar_fila estados i j fila = None ↔
  Forall (fun d => 0 <= d < estados) fila.
Proof.
  revert j. induction fila as [|d r IH]; intros j; simpl; [by split|].
  rewrite Forall_cons, <- (IH (j + 1)), Z.geb_leb.
  destruct (Z.ltb_spec d 0), (Z.leb_spec estados d); simpl;
    (split; [first [discriminate|intros ?; split; [lia|done]]
            |intros [? ?]; first [lia|done]]).
Qed.

Lemma validar_filas_None estados i trans :
  validar_filas estados i trans = None ↔
  Forall (Forall (fun d => 0 <= d < estados)) trans.
Proof.
  revert i. induction trans as [|fila r IH]; intros i; simpl; [by split|].
  rewrite Forall_cons, <- (IH (i + 1)), <- (validar_fila_None estados i 0).
  destruct (validar_fila estados i 0 fila); split; try discriminate;
    try (by intros [? ?]); by intros ?.
Qed.

Lemma validar_entrada_valida estados finales trans :
  snd (validar_entrada estados finales trans) = true ↔
  entrada_valida estados finales trans.
Proof.
  unfold validar_entrada, entrada_valida.
  rewrite <- validar_finales_None, <- (validar_filas_None estados 0).
  destruct (Z.leb_spec estados 0); simpl; [split; [done|lia]|].
  destruct (validar_finales estados finales); simpl;
    [split; [done|by intros (_ & ? & _)]|].
  destruct (Z.eqb_spec (len trans) estados); simpl;
    [|split; [done|by intros (_ & _ & ? & _)]].
  destruct (validar_filas estados 0 trans); simpl;
    [split; [done|by intros (_ & _ & _ & ?)]|].
  by split.
Qed.

(** ** The extracted pairs *)

Lemma pares_fila tabla n i l acc :
  cuadrada n tabla → 0 <= i < n → Forall (fun j => 0 <= j < n) l →
  for_ l (cuerpo_pares tabla i) acc
  = Ok (acc ++ filter (fun p => no_marcado tabla p = true) (map (pair i) l)).
Proof.
  intros Hc Hi Hl. revert acc.
  induction Hl as [|j r Hj Hr IH]; intros acc; simpl.
  - by rewrite app_nil_r.
  - unfold cuerpo_pares at 1. rewrite (leer_total n) by done. cbn [bind].
    rewrite filter_cons.
    assert (no_marcado tabla (i, j) = negb (celda tabla i j)) as Hnm by done.
    destruct (celda tabla i j); cbn [negb bind] in *.
    + rewrite IH. by rewrite decide_False by (by rewrite Hnm).
    + rewrite IH. rewrite decide_True by done. by rewrite <- app_assoc.
Qed.

Lemma pares_filas tabla n l acc :
  cuadrada n tabla → Forall (fun i => 0 <= i < n) l →
  for_ l (fun i => for_ (range (i + 1) n) (cuerpo_pares tabla i)) acc
  = Ok (acc ++ filter (fun p => no_marcado tabla p = true)
                 (flat_map (fun i => map (pair i) (range (i + 1) n)) l)).
Proof.
  intros Hc Hl. revert acc.
  induction Hl as [|i r Hi Hr IH]; intros acc; simpl.
  - by rewrite app_nil_r.
  - rewrite (pares_fila tabla n); [|done..|].
    + simpl. rewrite IH, filter_app. by rewrite <- app_assoc.
    + apply Forall_forall. intros j Hj%elem_of_range. lia.
Qed.

Lemma encontrar_pares_filter estados tabla :
  cuadrada (Z.max 0 estados) tabla →
  encontrar_pares_equivalentes estados tabla
  = Ok (filter (fun p => no_marcado tabla p = true) (pares estados)).
Proof.
  intros Hc. unfold encontrar_pares_equivalentes, pares.
  destruct (Z.le_gt_cases estados 0) as [Hn|Hn].
  - assert (range 0 estados = []) as -> by (apply seqZ_nil; lia). done.
  - rewrite Z.max_r in Hc by lia.
    rewrite (pares_filas tabla estados); [done..|].
    apply Forall_forall. by intros i Hi%elem_of_range.
Qed.

Lemma range_ordenado a b : StronglySorted Z.lt (range a b).
Proof.
  unfold range. remember (Z.to_nat (b - a)) as m eqn:Hm. revert a Hm.
  induction m as [|m IH]; intros a Hm.
  - rewrite seqZ_nil by lia. constructor.
  - rewrite seqZ_cons by lia. apply StronglySorted_cons. split.
    + apply Forall_forall. intros x Hx%elem_of_seqZ. lia.
    + replace (Z.pred (b - a)) with (b - Z.succ a) by lia. apply IH. lia.
Qed.

Lemma filter_ordenado {A} (R : relation A) (P : A → Prop)
    `{!∀ x, Decision (P x)} (l : list A) :
  StronglySorted R l → StronglySorted R (filter P l).
Proof.
  induction 1 as [|x l Hl IH Hx]; [constructor|].
  rewrite filter_cons. destruct (decide (P x)); [|done].
  constructor; [done|]. apply Forall_forall. intros y [_ Hy]%list_elem_of_filter.
  rewrite Forall_forall in Hx. by apply Hx.
Qed.

Lemma orden_lex_pares n : StronglySorted orden_lex (pares n).
Proof.
  unfold pares. generalize (range_ordenado 0 n).
  induction 1 as [|i r Hr IH Hi]; simpl; [constructor|].
  apply StronglySorted_app. split_and!; [| |done].
  - intros [i1 j1] [i2 j2] H1 H2.
    apply list_elem_of_In, in_map_iff in H1 as (y & [= <- <-] & _).
    apply list_elem_of_In, in_flat_map in H2 as (x & Hx%list_elem_of_In & H2).
    apply in_map_iff in H2 as (z & [= <- <-] & _).
    rewrite Forall_forall in Hi. left. simpl. by apply Hi.
  - generalize (range_ordenado (i + 1) n).
    induction 1 as [|j l Hl IHl Hj]; simpl; constructor; [done|].
    apply Forall_forall. intros [x y] Hxy.
    apply list_elem_of_In, in_map_iff in Hxy as (z & [= <- <-] & Hz).
    rewrite Forall_forall in Hj. right. simpl. split; [done|].
    by apply Hj, list_elem_of_In.
Qed.

(** ** Rows of equal length: the bound on the number of passes *)

Section uniforme.
Variables (estados : Z) (finales : list Z) (trans : list (list Z)).
Variable k : nat.
Hypothesis Hval : entrada_valida estados finales trans.
Hypothesis Hunif : Forall (fun fila => length fila = k) trans.

Local Abbreviation dist := (dist finales trans k).

Lemma delta_simbolo i a p : delta trans i a = Some p → (a < k)%nat.
Proof.
  unfold delta. destruct (trans !! Z.to_nat i) as [fila|] eqn:E; [|done].
  intros H%lookup_lt_Some. by rewrite <- (Forall_lookup_1 _ _ _ _ Hunif E).
Qed.

Lemma delta_definida i a :
  0 <= i < estados → (a < k)%nat → ∃ p, delta trans i a = Some p.
Proof.
  intros Hi Ha. destruct (fila_total _ _ _ Hval i Hi) as (fila & E & _).
  unfold delta. rewrite E. apply lookup_lt_is_Some_2.
  by rewrite (Forall_lookup_1 _ _ _ _ Hunif E).
Qed.

Lemma dist_S_true m i j :
  dist (S m) i j = true ↔
  dist m i j = true ∨
  ∃ a p q, delta trans i a = Some p ∧ delta trans j a = Some q ∧
           dist m p q = true.
Proof.
  simpl. rewrite orb_true_iff, existsb_exists. split.
  - intros [?|(a & _ & Ha)]; [by left|right].
    destruct (delta trans i a) as [p|] eqn:Dp; [|done].
    destruct (delta trans j a) as [q|] eqn:Dq; [|done]. by exists a, p, q.
  - intros [?|(a & p & q & Dp & Dq & Hpq)]; [by left|right].
    exists a. split; [|by rewrite Dp, Dq].
    apply in_seq. pose proof (delta_simbolo _ _ _ Dp). lia.
Qed.

Lemma dist_S_false m i j :
  dist (S m) i j = false ↔
  dist m i j = false ∧
  ∀ a p q, delta trans i a = Some p → delta trans j a = Some q →
           dist m p q = false.
Proof.
  rewrite <- !not_true_iff_false, dist_S_true. split.
  - intros Hn. split; [tauto|]. intros a p q Dp Dq.
    apply not_true_iff_false. intros Hpq. apply Hn. right. by exists a, p, q.
  - intros [H1 H2] [?|(a & p & q & Dp & Dq & Hpq)]; [done|].
    by rewrite (H2 a p q Dp Dq) in Hpq.
Qed.

Lemma dist_mono m m' i j :
  (m <= m')%nat → dist m i j = true → dist m' i j = true.
Proof.
  induction 1 as [|m' _ IH]; [done|]. intros H. apply dist_S_true. left. auto.
Qed.

Lemma dist_refl m i : dist m i i = false.
Proof.
  revert i. induction m as [|m IH]; intros i; [apply xorb_nilpotent|].
  apply dist_S_false. split; [done|]. intros a p q Dp Dq.
  assert (p = q) as -> by congruence. done.
Qed.

Lemma dist_sym_false m i j : dist m i j = false → dist m j i = false.
Proof.
  revert i j. induction m as [|m IH]; intros i j; simpl.
  - by rewrite xorb_comm.
  - change (dist (S m) i j = false → dist (S m) j i = false).
    rewrite !dist_S_false. intros [H1 H2]. split; [by apply IH|].
    intros a p q Dp Dq. apply IH. by eapply H2.
Qed.

Lemma dist_sym m i j : dist m i j = dist m j i.
Proof.
  destruct (dist m i j) eqn:E1, (dist m j i) eqn:E2; try done.
  - apply dist_sym_false in E2. congruence.
  - apply dist_sym_false in E1. congruence.
Qed.

Lemma dist_trans m i j l :
  0 <= j < estados →
  dist m i j = false → dist m j l = false → dist m i l = false.
Proof.
  revert i j l. induction m as [|m IH]; intros i j l Hj.
  - simpl. by destruct (pertenece i finales), (pertenece j finales),
              (pertenece l finales).
  - rewrite !dist_S_false. intros [H1 H2] [H3 H4]. split; [by eapply IH|].
    intros a p r Dp Dr.
    destruct (delta_definida j a Hj) as [q Dq]; [by eapply delta_simbolo|].
    apply (IH p q r); [by eapply delta_rango|by eapply H2|by eapply H4].
Qed.

Lemma dist_celda m T p q :
  (∀ i j, 0 <= i < j → j < estados → dist m i j = true →
          celda T i j = true) →
  0 <= p < estados → 0 <= q < estados → dist m p q = true →
  celda T (Z.min p q) (Z.max p q) = true.
Proof.
  intros HT Hp Hq Hd.
  assert (p ≠ q) by (intros ->; by rewrite dist_refl in Hd).
  destruct (Z.le_ge_cases p q).
  - rewrite Z.min_l, Z.max_r by lia. apply HT; [lia..|done].
  - rewrite Z.min_r, Z.max_l by lia. apply HT; [lia..|].
    by rewrite dist_sym.
Qed.

(** A pass over a table that holds [dist m] yields one that holds
    [dist (S m)]. *)
Lemma pasada_dist m T T' c :
  (∀ i j, 0 <= i < j → j < estados → dist m i j = true →
          celda T i j = true) →
  pasada estados trans T = Ok (T', c) →
  ∀ i j, 0 <= i < j → j < estados → dist (S m) i j = true →
         celda T' i j = true.
Proof.
  intros HT H. unfold pasada in H.
  apply (for_pares_post (fun s => incluida T (fst s))
           (fun i j s => dist (S m) i j = true → celda (fst s) i j = true))
    in H as [_ H]; [done| | |apply incluida_refl].
  - intros i j [t d] [t' d'] Hi Hj Hinc E. simpl in *.
    apply cuerpo_par_spec with (estados := estados) (finales := finales)
      in E as [(-> & _ & Hno)|(_ & _ & E & _)]; [| |done|lia..].
    + split; [done|]. intros Hd.
      destruct (celda t i j) eqn:Ec; [done|]. destruct (Hno eq_refl).
      apply dist_S_true in Hd as [Hd|(a & p & q & Dp & Dq & Hpq)].
      * apply HT, Hinc in Hd; [congruence|lia..].
      * exists a, p, q. split_and!; [done..|]. apply Hinc.
        apply (dist_celda m); [done|by eapply delta_rango..|done].
    + split.
      * eapply incluida_trans; [done|].
        eapply marcar_incluida; [| |done]; lia.
      * intros _. rewrite (marcar_celda t i j t' ltac:(lia) ltac:(lia) E).
        by rewrite !Z.eqb_refl.
  - intros i j i' j' [t d] [t' d'] Hi Hj _ Hq E Hd. simpl in *.
    specialize (Hq Hd).
    apply cuerpo_par_spec with (estados := estados) (finales := finales)
      in E as [(-> & _)|(_ & _ & E & _)]; [done| |done|lia..].
    eapply marcar_incluida; [| |done..]; lia.
Qed.

(** *** Counting the classes *)

Local Abbreviation reps m := (representantes finales trans k m estados).
Local Abbreviation estable m :=
  (Forall (fun p : Z * Z => dist (S m) (fst p) (snd p)
                            = dist m (fst p) (snd p)) (pares estados)).

Lemma elem_of_representantes m i :
  i ∈ reps m ↔ 0 <= i < estados ∧ ∀ j, 0 <= j < i → dist m j i = true.
Proof.
  unfold representantes.
  rewrite list_elem_of_filter, elem_of_range, Forall_forall.
  split; intros [H1 H2]; (split; [|done]) || (split; [done|]).
  - intros j Hj. by apply H1, elem_of_range.
  - intros j Hj%elem_of_range. by apply H2.
Qed.

Lemma representantes_cota m : (length (reps m) <= Z.to_nat estados)%nat.
Proof.
  unfold representantes. etrans; [apply length_filter|].
  unfold range. rewrite length_seqZ. lia.
Qed.

Lemma representantes_no_vacio m : (1 <= length (reps m))%nat.
Proof.
  assert (0 ∈ reps m) as Hin.
  { apply elem_of_representantes. destruct Hval as (? & _).
    split; [lia|]. intros j ?. lia. }
  destruct (reps m); [by apply elem_of_nil in Hin|simpl; lia].
Qed.

Lemma minimo (P : Z → bool) x :
  0 <= x → P x = true →
  ∃ y, 0 <= y <= x ∧ P y = true ∧ ∀ z, 0 <= z < y → P z = false.
Proof.
  assert (∀ n : nat, ∀ u, 0 <= u → u < Z.of_nat n → P u = true →
            ∃ y, 0 <= y <= u ∧ P y = true ∧
                 ∀ z, 0 <= z < y → P z = false) as Hgen.
  { clear x. induction n as [|n IH]; intros u Hu0 Hun Hp; [lia|].
    destruct (decide (Exists (fun z => P z = true) (range 0 u)))
      as [He|He].
    - apply Exists_exists in He as (z & Hz%elem_of_range & Hpz).
      destruct (IH z) as (y & Hy & Hpy & Hmin); [lia..|done|].
      exists y. split_and!; [lia..|done|done].
    - exists u. split_and!; [lia..|done|]. intros z Hz.
      apply not_true_iff_false. intros Hpz. apply He.
      apply Exists_exists. exists z. split; [|done].
      by apply elem_of_range. }
  intros Hx. apply (Hgen (S (Z.to_nat x))); lia.
Qed.

Lemma estable_no m i j :
  0 <= i < j → j < estados → dist (S m) i j ≠ dist m i j →
  dist m i j = false ∧ dist (S m) i j = true.
Proof.
  intros Hi Hj Hne. destruct (dist m i j) eqn:E.
  - destruct Hne. by apply (dist_mono m (S m)); [lia|].
  - split; [done|]. by destruct (dist (S m) i j).
Qed.

(** When one more symbol separates a new pair, a new class appears. *)
Lemma representantes_estricto m :
  ¬ estable m → (length (reps m) < length (reps (S m)))%nat.
Proof.
  intros Hn. apply not_Forall_Exists in Hn; [|apply _].
  apply Exists_exists in Hn as ([i j] & [Hi Hj]%elem_of_pares & Hne).
  simpl in Hne. apply estable_no in Hne as [Hm HS]; [|done..].
  destruct (minimo (fun y => negb (dist m y i)) i) as (r & Hr & Hri & Hrmin);
    [lia|by rewrite dist_refl|].
  apply negb_true_iff in Hri.
  assert (∃ x, 0 <= x < estados ∧ dist (S m) r x = true ∧
               dist m r x = false ∧ dist m x i = false)
    as (x & Hx & HSrx & Hrx & Hxi).
  { destruct (dist (S m) r i) eqn:E1.
    - exists i.
      refine (conj _ (conj _ (conj _ _))); [lia|done..|apply dist_refl].
    - exists j. refine (conj _ (conj _ (conj _ _))); [lia| | |].
      + destruct (dist (S m) r j) eqn:E2; [done|].
        apply dist_sym_false in E1.
        rewrite (dist_trans (S m) i r j) in HS; [done|lia|done..].
      + apply (dist_trans m r i j); [lia|done..].
      + by apply dist_sym_false. }
  destruct (minimo (fun y => negb (dist (S m) y x)) x)
    as (y & Hy & Hyx & Hymin); [lia|by rewrite dist_refl|].
  apply negb_true_iff in Hyx.
  apply (filter_estricto _ _ _ y).
  - apply elem_of_range. lia.
  - rewrite Forall_forall. intros Hall.
    assert (dist m y x = false) as Hyx'
      by (by apply dist_S_false in Hyx as [? _]).
    assert (dist m r y = false) as Hry.
    { apply (dist_trans m r x y); [lia|done|by apply dist_sym_false]. }
    assert (dist m y i = false) as Hyi.
    { apply (dist_trans m y x i); [lia|done..]. }
    assert (¬ r < y) as Hr1.
    { intros Hlt. rewrite Hall in Hry; [done|]. apply elem_of_range. lia. }
    assert (¬ y < r) as Hr2.
    { intros Hlt. specialize (Hrmin y ltac:(lia)).
      apply negb_false_iff in Hrmin. congruence. }
    assert (y = r) as -> by lia. congruence.
  - apply Forall_forall. intros z Hz%elem_of_range.
    destruct (dist (S m) z y) eqn:E; [done|].
    specialize (Hymin z ltac:(lia)). apply negb_false_iff in Hymin.
    rewrite (dist_trans (S m) z y x) in Hymin; [done|lia|done..].
  - intros z _ Hf. eapply Forall_impl; [done|].
    intros u. cbv beta. apply dist_mono. lia.
Qed.

Lemma estable_todos m i j :
  estable m → 0 <= i < estados → 0 <= j < estados →
  dist (S m) i j = dist m i j.
Proof.
  intros He Hi Hj. rewrite Forall_forall in He.
  destruct (Z.lt_total i j) as [Hlt|[->|Hlt]].
  - apply (He (i, j)). apply elem_of_pares. lia.
  - by rewrite !dist_refl.
  - rewrite (dist_sym (S m)), (dist_sym m).
    apply (He (j, i)). apply elem_of_pares. lia.
Qed.

Lemma estable_siempre m d i j :
  estable m → 0 <= i < estados → 0 <= j < estados →
  dist (m + d) i j = dist m i j.
Proof.
  intros He. revert i j. induction d as [|d IH]; intros i j Hi Hj.
  - by rewrite Nat.add_0_r.
  - replace (m + S d)%nat with (S (m + d)) by lia.
    rewrite <- (estable_todos m i j He Hi Hj).
    apply eq_iff_eq_true. rewrite !dist_S_true.
    split; (intros [H|(a & p & q & Dp & Dq & H)];
      [left|right; exists a, p, q; split_and!; [done..|]]).
    + by rewrite <- IH.
    + rewrite <- IH; [done|by eapply delta_rango..].
    + by rewrite IH.
    + rewrite IH; [done|by eapply delta_rango..].
Qed.

Lemma existe_estable : ∃ m, (m < Z.to_nat estados)%nat ∧ estable m.
Proof.
  assert (∀ M, (∃ m, (m < M)%nat ∧ estable m) ∨
               (M + 1 <= length (reps M))%nat) as Hch.
  { induction M as [|M [(m & Hm & He)|IH]].
    - right. apply representantes_no_vacio.
    - left. exists m. split; [lia|done].
    - destruct (decide (estable M)) as [He|He].
      + left. exists M. split; [lia|done].
      + right. pose proof (representantes_estricto M He). lia. }
  destruct (Hch (Z.to_nat estados)) as [?|Hc]; [done|].
  pose proof (representantes_cota (Z.to_nat estados)). lia.
Qed.

(** Strings of fewer than [estados] symbols separate every pair that
    some string separates. *)
Lemma dist_completa M i j :
  0 <= i < estados → 0 <= j < estados →
  dist M i j = true → dist (Z.to_nat estados - 1) i j = true.
Proof.
  intros Hi Hj Hd. destruct existe_estable as (m & Hm & He).
  destruct (le_lt_dec M m) as [Hle|Hlt].
  - apply (dist_mono M); [lia|done].
  - apply (dist_mono m); [lia|].
    replace M with (m + (M - m))%nat in Hd by lia.
    by rewrite estable_siempre in Hd.
Qed.

Lemma distingue_dist w i j :
  distingue finales trans w i j → dist (length w) i j = true.
Proof.
  revert i j. induction w as [|a r IH]; intros i j (p & q & Hp & Hq & Hne);
    simpl in Hp, Hq.
  - injection Hp as <-. injection Hq as <-. simpl.
    by destruct (pertenece i finales), (pertenece j finales).
  - destruct (delta trans i a) as [p'|] eqn:Dp; [|done].
    destruct (delta trans j a) as [q'|] eqn:Dq; [|done].
    change (dist (S (length r)) i j = true). apply dist_S_true. right.
    exists a, p', q'. split_and!; [done..|]. apply IH. by exists p, q.
Qed.

(** From a sound table that holds [dist m], when [dist (m + d)] is
    already everything, the loop ends within [d + 1] passes. *)
Lemma mientras_cota d m fuel T it T' it' :
  (∀ a b, celda T a b = true → distinguibles finales trans a b) →
  (∀ i j, 0 <= i < j → j < estados → dist m i j = true →
          celda T i j = true) →
  (∀ M i j, 0 <= i < estados → 0 <= j < estados → dist M i j = true →
            dist (m + d) i j = true) →
  mientras fuel estados trans T it = Ok (T', it') →
  it' <= it + Z.of_nat d + 1.
Proof.
  revert m fuel T it. induction d as [|d IH];
    intros m fuel T it Hs HT Hcomp H.
  - destruct fuel as [|f]; [done|]. simpl in H. inv_bind H.
    destruct v as [T1 [|]]; [|injection H as _ <-; lia].
    pose proof (pasada_correcta _ _ _ Hval _ _ _ E Hs) as Hs1.
    apply pasada_cambio with (finales := finales) in E
      as (_ & i & j & [Hi Hj] & H1 & H2); [|done].
    exfalso. destruct (Hs1 i j H2) as (w & Hw%distingue_dist).
    apply Hcomp in Hw; [|lia..]. rewrite Nat.add_0_r in Hw.
    rewrite HT in H1; [done..|lia|done].
  - destruct fuel as [|f]; [done|]. simpl in H. inv_bind H.
    destruct v as [T1 [|]]; [|injection H as _ <-; lia].
    apply (IH (S m)) in H; [lia| | |].
    + by eapply pasada_correcta.
    + by eapply pasada_dist.
    + intros M i j Hi Hj Hd.
      replace (S m + d)%nat with (m + S d)%nat by lia. by eapply Hcomp.
Qed.

Lemma crear_tabla_cota fuel T it :
  crear_tabla_iteraciones fuel estados finales trans = Ok (T, it) →
  it <= estados.
Proof.
  unfold crear_tabla_iteraciones. intros H. inv_bind H. rename v into T0.
  destruct Hval as (Hpos & _).
  apply (mientras_cota (Z.to_nat estados - 1) 0) in H; [lia| | |].
  - refine (paso_base_correcta _ _ _ _ _ E _). intros a b.
    by rewrite tabla_inicial_celda.
  - intros i j Hi Hj Hd. simpl in Hd.
    eapply paso_base_marca; [exact E|done..|].
    by destruct (pertenece i finales), (pertenece j finales).
  - intros M i j. apply dist_completa.
Qed.

End uniforme.

(** ** The [while] loop, for any budget *)

Lemma mientras_incluida estados finales trans fuel T it T' it' :
  entrada_valida estados finales trans →
  mientras fuel estados trans T it = Ok (T', it') → incluida T T'.
Proof.
  intros Hval. revert T it. induction fuel as [|f IH]; intros T it H; [done|].
  simpl in H. inv_bind H. destruct v as [T1 c].
  pose proof (pasada_incluida _ _ _ Hval _ _ _ E) as Hinc. destruct c.
  - eapply incluida_trans; [done|]. by eapply IH.
  - by injection H as <- _.
Qed.

Lemma mientras_sin_error estados finales trans fuel T it :
  entrada_valida estados finales trans → cuadrada estados T →
  mientras fuel estados trans T it ≠ IndexError.
Proof.
  intros Hval. revert T it. induction fuel as [|f IH]; intros T it Hc; [done|].
  simpl. destruct (pasada_total _ _ _ Hval T Hc) as (T1 & c & -> & Hc1).
  simpl. destruct c; [by apply IH|done].
Qed.

Lemma length_pares n :
  0 <= n → 2 * Z.of_nat (length (pares n)) = n * (n - 1).
Proof.
  intros Hn. unfold pares, range at 2. rewrite Z.sub_0_r.
  assert (∀ (m : nat) a, a + Z.of_nat m = n →
            2 * Z.of_nat (length (flat_map
                  (fun i => map (pair i) (range (i + 1) n))
                  (seqZ a (Z.of_nat m))))
            = Z.of_nat m * (Z.of_nat m - 1)) as Hgen.
  { induction m as [|m IH]; intros a Ha; [done|].
    rewrite seqZ_cons by lia. simpl flat_map.
    rewrite length_app, length_map. unfold range at 1. rewrite length_seqZ.
    replace (Z.pred (Z.of_nat (S m))) with (Z.of_nat m) by lia.
    specialize (IH (Z.succ a) ltac:(lia)). lia. }
  specialize (Hgen (Z.to_nat n) 0). rewrite Z2Nat.id in Hgen by done.
  by apply Hgen.
Qed.

(** ** Acceptance and distinguishing strings *)

Lemma distinguibles_nerode finales trans i j :
  distinguibles finales trans i j → nerode_distinguibles finales trans i j.
Proof.
  intros (w & p & q & Hp & Hq & Hne). exists w. unfold acepta.
  by rewrite Hp, Hq.
Qed.

Lemma correr_uniforme estados finales trans k w i p j :
  entrada_valida estados finales trans →
  Forall (fun fila => length fila = k) trans →
  correr trans i w = Some p → 0 <= j < estados →
  ∃ q, correr trans j w = Some q.
Proof.
  intros Hval Hunif. revert i j.
  induction w as [|a r IH]; intros i j Hp Hj; simpl in *; [eauto|].
  destruct (delta trans i a) as [i'|] eqn:Di; [|done].
  destruct (delta_definida estados finales trans k Hval Hunif j a Hj)
    as [j' Dj]; [by eapply delta_simbolo|].
  rewrite Dj. eapply IH; [done|]. by eapply delta_rango.
Qed.

(** With rows of equal length a string read from one state can be read from
    any other, so the two notions agree. *)
Lemma nerode_distinguibles_uniforme estados finales trans k i j :
  entrada_valida estados finales trans →
  Forall (fun fila => length fila = k) trans →
  0 <= i < estados → 0 <= j < estados →
  nerode_distinguibles finales trans i j → distinguibles finales trans i j.
Proof.
  intros Hval Hunif Hi Hj [w Hw]. exists w. unfold acepta in Hw.
  destruct (correr trans i w) as [p|] eqn:Hp.
  - destruct (correr_uniforme _ _ _ _ _ _ _ _ Hval Hunif Hp Hj) as [q Hq].
    rewrite Hq in Hw. by exists p, q.
  - destruct (correr trans j w) as [q|] eqn:Hq; [|done].
    destruct (correr_uniforme _ _ _ _ _ _ _ _ Hval Hunif Hq Hi) as [p Hp'].
    congruence.
Qed.

(** * Main results *)

(** C1 (as the code has it).  On a validated input the returned table
    marks the pair [{i, j}], [i ≠ j], exactly when some string that both
    states can read in full drives them to states of different finality.
    Every marked pair is Myhill-Nerode distinguishable; when all rows have
    the same length the converse holds too, and the marked pairs are exactly
    the Myhill-Nerode distinguishable ones. *)
Theorem tabla_distinguibilidad_corregida estados finales trans :
  snd (validar_entrada estados finales trans) = true →
  ∃ tabla,
    (∀ fuel, (length (pares estados) < fuel)%nat →
       crear_tabla_distinguibilidad fuel estados finales trans = Ok tabla) ∧
    (∀ i j, 0 <= i < estados → 0 <= j < estados → i ≠ j →
       (leer tabla (Z.min i j) (Z.max i j) = Ok true ↔
        distinguibles finales trans i j)) ∧
    (∀ i j, 0 <= i < estados → 0 <= j < estados → i ≠ j →
       leer tabla (Z.min i j) (Z.max i j) = Ok true →
       nerode_distinguibles finales trans i j) ∧
    ((∃ k, Forall (fun fila => length fila = k) trans) →
     ∀ i j, 0 <= i < estados → 0 <= j < estados → i ≠ j →
       (leer tabla (Z.min i j) (Z.max i j) = Ok true ↔
        nerode_distinguibles finales trans i j)).
Proof.
  intros Hval%validar_entrada_valida.
  destruct (crear_tabla_spec _ _ _ Hval)
    as (T0 & T & it & E0 & Hrun & Hc0 & Hc & Hinc & Ht & Hs & Hb & Hcerr & _).
  assert (∀ i j, 0 <= i < estados → 0 <= j < estados → i ≠ j →
            (leer T (Z.min i j) (Z.max i j) = Ok true ↔
             distinguibles finales trans i j)) as Hexacta.
  { intros i j Hi Hj Hij. rewrite (leer_total estados) by (done || lia).
    split.
    - intros [= Hm]. apply Hs in Hm. destruct (Z.le_ge_cases i j).
      + by rewrite Z.min_l, Z.max_r in Hm by lia.
      + rewrite Z.min_r, Z.max_l in Hm by lia. by apply distinguibles_sym.
    - intros [w Hw]. f_equal.
      apply (cerrada_completa _ _ _ Hval T) with (w := w); [|done..].
      intros a b Ha Hb' Hne. apply Hinc. by apply Hb. }
  exists T. split_and!; [|done| |].
  - intros fuel Hf. unfold crear_tabla_distinguibilidad.
    rewrite Hrun; [done|]. pose proof (pendientes_pares estados T0). lia.
  - intros i j Hi Hj Hij Hm. apply distinguibles_nerode.
    by apply Hexacta.
  - intros [k Hk] i j Hi Hj Hij. rewrite (Hexacta i j Hi Hj Hij).
    split; [apply distinguibles_nerode|].
    by apply (nerode_distinguibles_uniforme estados finales trans k).
Qed.

Lemma tabla_distinguibilidad_corregida_witness :
  ∃ tabla,
    (∀ fuel, (length (pares 3) < fuel)%nat →
       crear_tabla_distinguibilidad fuel 3 [2] [[0; 1]; [0; 1]; [2; 2]]
       = Ok tabla) ∧
    (∀ i j, 0 <= i < 3 → 0 <= j < 3 → i ≠ j →
       (leer tabla (Z.min i j) (Z.max i j) = Ok true ↔
        distinguibles [2] [[0; 1]; [0; 1]; [2; 2]] i j)) ∧
    (∀ i j, 0 <= i < 3 → 0 <= j < 3 → i ≠ j →
       leer tabla (Z.min i j) (Z.max i j) = Ok true →
       nerode_distinguibles [2] [[0; 1]; [0; 1]; [2; 2]] i j) ∧
    ((∃ k, Forall (fun fila => length fila = k) [[0; 1]; [0; 1]; [2; 2]]) →
     ∀ i j, 0 <= i < 3 → 0 <= j < 3 → i ≠ j →
       (leer tabla (Z.min i j) (Z.max i j) = Ok true ↔
        nerode_distinguibles [2] [[0; 1]; [0; 1]; [2; 2]] i j)).
Proof.
  apply (tabla_distinguibilidad_corregida 3 [2] [[0; 1]; [0; 1]; [2; 2]]).
  vm_compute. reflexivity.
Defined.

(** C1 as stated fails when rows differ in length: four states, final
    state 3, rows [[3],[],[2],[]] pass validation; the string made of
    symbol 0 is accepted from state 0 and cannot be read from state 1, yet
    the pair (0, 1) is left unmarked in the returned table. *)
Lemma tabla_no_exacta_filas_irregulares :
  snd (validar_entrada 4 [3] [[3]; []; [2]; []]) = true ∧
  ∃ tabla,
    (∀ fuel, (length (pares 4) < fuel)%nat →
       crear_tabla_distinguibilidad fuel 4 [3] [[3]; []; [2]; []]
       = Ok tabla) ∧
    leer tabla 0 1 = Ok false ∧
    acepta [3] [[3]; []; [2]; []] 0 [0%nat] = true ∧
    acepta [3] [[3]; []; [2]; []] 1 [0%nat] = false ∧
    ¬ (leer tabla (Z.min 0 1) (Z.max 0 1) = Ok true ↔
       nerode_distinguibles [3] [[3]; []; [2]; []] 0 1).
Proof.
  split; [vm_compute; reflexivity|].
  assert (crear_tabla_iteraciones 2 4 [3] [[3]; []; [2]; []]
          = Ok ([[false; false; true; true]; [false; false; false; true];
                 [false; false; false; true]; [false; false; false; false]],
                2)) as H by (vm_compute; reflexivity).
  eexists. split_and!.
  - intros fuel Hf. unfold crear_tabla_distinguibilidad.
    rewrite (crear_tabla_iteraciones_mono _ fuel _ _ _ _ H);
      [reflexivity|simpl in Hf; lia].
  - vm_compute. reflexivity.
  - vm_compute. reflexivity.
  - vm_compute. reflexivity.
  - intros [_ Hn]. assert (@Ok bool false = Ok true) as Habs; [|done].
    apply Hn. exists [0%nat]. vm_compute. discriminate.
Qed.

(** C2. [validar_entrada] reports failure exactly when the state count is
    not positive, or a final state is out of range, or the number of rows
    differs from the state count, or a transition target is out of range;
    otherwise it reports success, printing nothing.  It is a function of its
    three arguments and returns only the diagnostics and the verdict. *)
Theorem validar_entrada_falla_sii estados finales trans :
  (snd (validar_entrada estados finales trans) = false ↔
     estados <= 0 ∨
     Exists (fun e => ¬ (0 <= e < estados)) finales ∨
     len trans ≠ estados ∨
     Exists (Exists (fun d => ¬ (0 <= d < estados))) trans) ∧
  (snd (validar_entrada estados finales trans) = true ↔
     entrada_valida estados finales trans) ∧
  (snd (validar_entrada estados finales trans) = true →
     fst (validar_entrada estados finales trans) = []).
Proof.
  split_and!; [|apply validar_entrada_valida|].
  - rewrite <- not_true_iff_false, validar_entrada_valida.
    unfold entrada_valida. split.
    + intros Hn.
      destruct (decide (estados <= 0)) as [|Hpos]; [by left|right].
      destruct (decide (Forall (fun e => 0 <= e < estados) finales))
        as [Hf|Hf];
        [right|left; exact (not_Forall_Exists _ _ Hf)].
      destruct (decide (len trans = estados)) as [Hl|]; [right|by left].
      destruct (decide (Forall (Forall (fun d => 0 <= d < estados)) trans))
        as [Ht|Ht]; [destruct Hn; split_and!; [lia|done..]|].
      apply not_Forall_Exists in Ht; [|apply _].
      eapply Exists_impl; [exact Ht|]. intros fila Hfila.
      exact (not_Forall_Exists _ _ Hfila).
    + intros [?|[Hf|[?|Ht]]] (Hpos & HF & Hl & HT); [lia| |done|].
      * by eapply (Exists_not_Forall (fun e => 0 <= e < estados)).
      * eapply (Exists_not_Forall (Forall (fun d => 0 <= d < estados)));
          [|done].
        eapply Exists_impl; [done|]. intros fila Hfila. simpl.
        by apply (Exists_not_Forall (fun d => 0 <= d < estados)).
  - unfold validar_entrada. destruct (estados <=? 0); [done|].
    destruct (validar_finales _ _); [done|].
    destruct (negb _); [done|]. by destruct (validar_filas _ _ _).
Qed.

(** C3 (as the code has it).  On a validated input the propagation loop
    terminates: whatever budget exceeds the number of pairs, the same table
    and the same count of passes come out, and a further pass over the
    result marks nothing.  The count of passes, the last (idle) one
    included, is at most one more than the number [n (n - 1) / 2] of pairs;
    it is at most [estados] when all rows have the same length. *)
Theorem pasadas_acotadas estados finales trans :
  snd (validar_entrada estados finales trans) = true →
  ∃ tabla it,
    (∀ fuel, (length (pares estados) < fuel)%nat →
       crear_tabla_iteraciones fuel estados finales trans = Ok (tabla, it)) ∧
    pasada estados trans tabla = Ok (tabla, false) ∧
    1 <= it <= 1 + estados * (estados - 1) / 2 ∧
    ((∃ k, Forall (fun fila => length fila = k) trans) → it <= estados).
Proof.
  intros Hval%validar_entrada_valida.
  destruct (crear_tabla_spec _ _ _ Hval)
    as (T0 & T & it & E0 & Hrun & _ & _ & _ & _ & _ & _ & _ & Hit & Hult).
  pose proof (pendientes_pares estados T0) as Hp.
  exists T, it. split_and!; [|done|lia| |].
  - intros fuel Hf. apply Hrun. lia.
  - destruct Hval as (Hpos & _).
    pose proof (length_pares estados ltac:(lia)) as Hl.
    apply Z.le_trans with (1 + Z.of_nat (length (pares estados))); [lia|].
    apply Z.add_le_mono_l, Z.div_le_lower_bound; lia.
  - intros [k Hk]. eapply (crear_tabla_cota estados finales trans k Hval Hk).
    apply (Hrun (S (pendientes estados T0))). lia.
Qed.

Lemma pasadas_acotadas_witness :
  ∃ tabla it,
    (∀ fuel, (length (pares 3) < fuel)%nat →
       crear_tabla_iteraciones fuel 3 [2] [[0; 1]; [0; 1]; [2; 2]]
       = Ok (tabla, it)) ∧
    pasada 3 [[0; 1]; [0; 1]; [2; 2]] tabla = Ok (tabla, false) ∧
    1 <= it <= 1 + 3 * (3 - 1) / 2 ∧
    ((∃ k, Forall (fun fila => length fila = k) [[0; 1]; [0; 1]; [2; 2]]) →
     it <= 3).
Proof.
  apply (pasadas_acotadas 3 [2] [[0; 1]; [0; 1]; [2; 2]]).
  vm_compute. reflexivity.
Defined.

(** C3 as stated fails when rows differ in length: six states, final
    state 5, rows [[3,0],[4,1,5],[0,4],[1,3,1],[2],[4,5]] pass validation
    and take eight passes, seven of which mark a new pair. *)
Lemma pasadas_no_acotadas_por_estados :
  snd (validar_entrada 6 [5]
         [[3; 0]; [4; 1; 5]; [0; 4]; [1; 3; 1]; [2]; [4; 5]]) = true ∧
  (∃ tabla, crear_tabla_iteraciones 8 6 [5]
              [[3; 0]; [4; 1; 5]; [0; 4]; [1; 3; 1]; [2]; [4; 5]]
            = Ok (tabla, 8)) ∧
  ¬ (∃ fuel tabla it,
       crear_tabla_iteraciones fuel 6 [5]
         [[3; 0]; [4; 1; 5]; [0; 4]; [1; 3; 1]; [2]; [4; 5]]
       = Ok (tabla, it) ∧ it <= 6).
Proof.
  assert (∃ tabla, crear_tabla_iteraciones 8 6 [5]
              [[3; 0]; [4; 1; 5]; [0; 4]; [1; 3; 1]; [2]; [4; 5]]
            = Ok (tabla, 8)) as [tabla H8]
    by (eexists; vm_compute; reflexivity).
  split_and!; [vm_compute; reflexivity|by exists tabla|].
  intros (fuel & tabla' & it & H & Hle).
  pose proof (crear_tabla_iteraciones_det _ _ _ _ _ _ _ H H8) as [= _ ->].
  lia.
Qed.

(** C4. Over a table built for [estados] states,
    [encontrar_pares_equivalentes] returns the pairs [(i, j)] with
    [0 <= i < j < estados] whose entry is not marked, each once, ordered by
    [i] and then by [j]; the list is empty when every pair is marked. *)
Theorem encontrar_pares_equivalentes_spec estados tabla :
  cuadrada (Z.max 0 estados) tabla →
  ∃ ps, encontrar_pares_equivalentes estados tabla = Ok ps ∧
        (∀ i j, (i, j) ∈ ps ↔
                (0 <= i < j ∧ j < estados) ∧ leer tabla i j = Ok false) ∧
        StronglySorted orden_lex ps ∧
        ((∀ i j, 0 <= i < j → j < estados → leer tabla i j = Ok true) →
         ps = []).
Proof.
  intros Hc. eexists. split; [by apply encontrar_pares_filter|].
  assert (∀ i j, 0 <= i < j → j < estados →
                 leer tabla i j = Ok (celda tabla i j)) as Hleer.
  { intros i j Hi Hj. apply (leer_total (Z.max 0 estados)); [done|lia..]. }
  split_and!.
  - intros i j. rewrite list_elem_of_filter, elem_of_pares.
    unfold no_marcado. simpl. split.
    + intros [Hm [Hi Hj]]. split; [done|]. rewrite Hleer by done.
      by destruct (celda tabla i j).
    + intros [[Hi Hj] Hm]. split; [|done]. rewrite Hleer in Hm by done.
      by injection Hm as ->.
  - apply filter_ordenado, orden_lex_pares.
  - intros Hall.
    destruct (filter _ (pares estados)) as [|[i j] r] eqn:E; [done|].
    assert ((i, j) ∈ filter (fun p => no_marcado tabla p = true)
                       (pares estados)) as Hin by (rewrite E; by left).
    apply list_elem_of_filter in Hin as [Hm [Hi Hj]%elem_of_pares].
    specialize (Hall i j Hi Hj). rewrite Hleer in Hall by done.
    injection Hall as Hall. unfold no_marcado in Hm. simpl in Hm.
    by rewrite Hall in Hm.
Qed.

Lemma encontrar_pares_equivalentes_spec_witness :
  ∃ ps, encontrar_pares_equivalentes 3
          [[false; false; true]; [false; false; true]; [false; false; false]]
        = Ok ps ∧
        (∀ i j, (i, j) ∈ ps ↔
                (0 <= i < j ∧ j < 3) ∧
                leer [[false; false; true]; [false; false; true];
                      [false; false; false]] i j = Ok false) ∧
        StronglySorted orden_lex ps ∧
        ((∀ i j, 0 <= i < j → j < 3 →
                 leer [[false; false; true]; [false; false; true];
                       [false; false; false]] i j = Ok true) →
         ps = []).
Proof.
  apply (encontrar_pares_equivalentes_spec 3
           [[false; false; true]; [false; false; true]; [false; false; false]]).
  split; [reflexivity|]. repeat constructor.
Defined.

(** C5. On a validated input every pair [i < j] of which exactly one is
    final is marked after the base case and is still marked in the returned
    table. *)
Theorem caso_base_permanece estados finales trans :
  snd (validar_entrada estados finales trans) = true →
  ∃ T0 tabla,
    paso_base estados finales (tabla_inicial estados) = Ok T0 ∧
    (∀ fuel, (length (pares estados) < fuel)%nat →
       crear_tabla_distinguibilidad fuel estados finales trans = Ok tabla) ∧
    ∀ i j, 0 <= i < j → j < estados →
           pertenece i finales ≠ pertenece j finales →
           leer T0 i j = Ok true ∧ leer tabla i j = Ok true.
Proof.
  intros Hval%validar_entrada_valida.
  destruct (crear_tabla_spec _ _ _ Hval)
    as (T0 & T & it & E0 & Hrun & Hc0 & Hc & Hinc & _ & _ & Hb & _).
  exists T0, T. split_and!; [done| |].
  - intros fuel Hf. unfold crear_tabla_distinguibilidad.
    rewrite Hrun; [done|]. pose proof (pendientes_pares estados T0). lia.
  - intros i j Hi Hj Hne. rewrite !(leer_total estados) by (done || lia).
    specialize (Hb i j Hi Hj Hne). by rewrite (Hinc _ _ Hb), Hb.
Qed.

Lemma caso_base_permanece_witness :
  ∃ T0 tabla,
    paso_base 3 [2] (tabla_inicial 3) = Ok T0 ∧
    (∀ fuel, (length (pares 3) < fuel)%nat →
       crear_tabla_distinguibilidad fuel 3 [2] [[0; 1]; [0; 1]; [2; 2]]
       = Ok tabla) ∧
    ∀ i j, 0 <= i < j → j < 3 →
           pertenece i [2] ≠ pertenece j [2] →
           leer T0 i j = Ok true ∧ leer tabla i j = Ok true.
Proof.
  apply (caso_base_permanece 3 [2] [[0; 1]; [0; 1]; [2; 2]]).
  vm_compute. reflexivity.
Defined.

(** C6. On a validated input no step of the construction unmarks a pair:
    every entry that is True before the base case, before a pass of the
    propagation loop, or before the loop as a whole, is True after it. *)
Theorem marcas_monotonas estados finales trans :
  snd (validar_entrada estados finales trans) = true →
  (∀ T T', paso_base estados finales T = Ok T' → incluida T T') ∧
  (∀ T T' c, pasada estados trans T = Ok (T', c) → incluida T T') ∧
  (∀ fuel T it T' it',
     mientras fuel estados trans T it = Ok (T', it') → incluida T T').
Proof.
  intros Hval%validar_entrada_valida. split_and!.
  - intros T T'. by apply paso_base_incluida.
  - intros T T' c. by eapply pasada_incluida.
  - intros fuel T it T' it'. by eapply mientras_incluida.
Qed.

Lemma marcas_monotonas_witness :
  (∀ T T', paso_base 3 [2] T = Ok T' → incluida T T') ∧
  (∀ T T' c, pasada 3 [[0; 1]; [0; 1]; [2; 2]] T = Ok (T', c) →
             incluida T T') ∧
  (∀ fuel T it T' it',
     mientras fuel 3 [[0; 1]; [0; 1]; [2; 2]] T it = Ok (T', it') →
     incluida T T').
Proof.
  apply (marcas_monotonas 3 [2] [[0; 1]; [0; 1]; [2; 2]]).
  vm_compute. reflexivity.
Defined.

(** C7. Scenario A: three states, final state 2, transitions
    [[0,1],[0,1],[2,2]]; building the table and extracting the pairs yields
    the single pair (0, 1), for every budget of at least two passes. *)
Theorem escenario_A (k : nat) :
  (do tabla <- crear_tabla_distinguibilidad (2 + k) 3 [2]
                 [[0; 1]; [0; 1]; [2; 2]];
   encontrar_pares_equivalentes 3 tabla) = Ok [(0, 1)].
Proof.
  assert (crear_tabla_iteraciones 2 3 [2] [[0; 1]; [0; 1]; [2; 2]]
          = Ok ([[false; false; true]; [false; false; true];
                 [false; false; false]], 1)) as H
    by (vm_compute; reflexivity).
  apply (crear_tabla_iteraciones_mono _ (2 + k)) in H; [|lia].
  unfold crear_tabla_distinguibilidad. rewrite H. vm_compute. reflexivity.
Qed.



(** C9. Only entries above the diagonal are ever True: this holds for the
    initial table and is kept by every loop body that writes to the table
    (base case, scan of one symbol), hence by every pass and by the
    returned table.  In such a table every diagonal entry is False, so a
    symbol that leads both states to the same destination never marks the
    pair. *)
Theorem tabla_triangular estados finales trans :
  snd (validar_entrada estados finales trans) = true →
  triangular (tabla_inicial estados) ∧
  (∀ i j T T', 0 <= i < j → cuerpo_base finales i j T = Ok T' →
               triangular T → triangular T') ∧
  (∀ T T', paso_base estados finales T = Ok T' →
           triangular T → triangular T') ∧
  (∀ i j a T c ctl T' c', 0 <= i < j → 0 <= a →
     cuerpo_simbolo trans i j a (T, c) = Ok (ctl, (T', c')) →
     triangular T → triangular T') ∧
  (∀ T T' c, pasada estados trans T = Ok (T', c) →
             triangular T → triangular T') ∧
  (∀ fuel T, crear_tabla_distinguibilidad fuel estados finales trans = Ok T →
             triangular T) ∧
  (∀ T p, triangular T → celda T p p = false) ∧
  (∀ T i j a c d, cuadrada estados T → triangular T →
     0 <= i < estados → 0 <= j < estados →
     delta trans i a = Some d → delta trans j a = Some d →
     cuerpo_simbolo trans i j (Z.of_nat a) (T, c) = Ok (Continue, (T, c))).
Proof.
  intros Hval%validar_entrada_valida.
  assert (∀ T p, triangular T → celda T p p = false) as Hdiag.
  { intros T p Ht. destruct (celda T p p) eqn:E; [|done].
    apply Ht in E. lia. }
  split_and!; [| | | | | |done|].
  - intros a b. by rewrite tabla_inicial_celda.
  - intros i j T T' Hij [[-> _]|[E _]]%cuerpo_base_spec Ht; [done|].
    by eapply marcar_triangular.
  - intros T T'. by apply paso_base_triangular.
  - intros i j a T c ctl T' c' Hij Ha E Ht.
    apply cuerpo_simbolo_spec with (estados := estados) (finales := finales)
      in E as [(_ & -> & _)|(_ & _ & E & _)]; [done| |done|lia..].
    by eapply marcar_triangular.
  - intros T T' c. by eapply pasada_triangular.
  - intros fuel T E.
    destruct (crear_tabla_spec _ _ _ Hval)
      as (T0 & T1 & it & _ & Hrun & _ & _ & _ & Ht & _).
    unfold crear_tabla_distinguibilidad in E. inv_bind E. destruct v as [T2 it2].
    injection E as <-.
    specialize (Hrun (S (pendientes estados T0)) ltac:(lia)).
    pose proof (crear_tabla_iteraciones_det _ _ _ _ _ _ _ E0 Hrun) as [= -> _].
    done.
  - intros T i j a c d Hc Ht Hi Hj Di Dj.
    assert (∃ fila_i, trans !! Z.to_nat i = Some fila_i ∧
                      fila_i !! a = Some d) as (fila_i & Ei & Ea).
    { unfold delta in Di. destruct (trans !! Z.to_nat i); [eauto|done]. }
    destruct (cuerpo_simbolo_total _ _ _ Hval i j (Z.of_nat a) T c fila_i)
      as ([ctl [T' c']] & E); [done..| |].
    { apply lookup_lt_Some in Ea. unfold len. lia. }
    rewrite E.
    apply cuerpo_simbolo_spec with (estados := estados) (finales := finales)
      in E as [(-> & -> & -> & _)|(_ & _ & _ & p & q & Dp & Dq & Hpq)];
      [done| |done|lia..].
    rewrite Nat2Z.id in Dp, Dq. assert (p = d) as -> by congruence.
    assert (q = d) as -> by congruence.
    rewrite Z.min_id, Z.max_id, Hdiag in Hpq; done.
Qed.

Lemma tabla_triangular_witness :
  triangular (tabla_inicial 3) ∧
  (∀ i j T T', 0 <= i < j → cuerpo_base [2] i j T = Ok T' →
               triangular T → triangular T') ∧
  (∀ T T', paso_base 3 [2] T = Ok T' → triangular T → triangular T') ∧
  (∀ i j a T c ctl T' c', 0 <= i < j → 0 <= a →
     cuerpo_simbolo [[0; 1]; [0; 1]; [2; 2]] i j a (T, c)
     = Ok (ctl, (T', c')) →
     triangular T → triangular T') ∧
  (∀ T T' c, pasada 3 [[0; 1]; [0; 1]; [2; 2]] T = Ok (T', c) →
             triangular T → triangular T') ∧
  (∀ fuel T,
     crear_tabla_distinguibilidad fuel 3 [2] [[0; 1]; [0; 1]; [2; 2]] = Ok T →
     triangular T) ∧
  (∀ T p, triangular T → celda T p p = false) ∧
  (∀ T i j a c d, cuadrada 3 T → triangular T →
     0 <= i < 3 → 0 <= j < 3 →
     delta [[0; 1]; [0; 1]; [2; 2]] i a = Some d →
     delta [[0; 1]; [0; 1]; [2; 2]] j a = Some d →
     cuerpo_simbolo [[0; 1]; [0; 1]; [2; 2]] i j (Z.of_nat a) (T, c)
     = Ok (Continue, (T, c))).
Proof.
  apply (tabla_triangular 3 [2] [[0; 1]; [0; 1]; [2; 2]]).
  vm_compute. reflexivity.
Defined.

(** C10. On a validated input every transition target is a valid state,
    every pass over a table of the right shape completes, and both
    [crear_tabla_distinguibilidad] and [encontrar_pares_equivalentes] on its
    result return a value: no subscript is out of range, whatever the
    budget of passes. *)
Theorem sin_excepciones estados finales trans :
  snd (validar_entrada estados finales trans) = true →
  (∀ i a d, delta trans i a = Some d → 0 <= d < estados) ∧
  (∀ T, cuadrada estados T → ∃ r, pasada estados trans T = Ok r) ∧
  (∀ fuel,
     crear_tabla_distinguibilidad fuel estados finales trans ≠ IndexError) ∧
  ∃ tabla ps,
    (∀ fuel, (length (pares estados) < fuel)%nat →
       crear_tabla_distinguibilidad fuel estados finales trans = Ok tabla) ∧
    cuadrada estados tabla ∧
    encontrar_pares_equivalentes estados tabla = Ok ps.
Proof.
  intros Hval%validar_entrada_valida.
  destruct (crear_tabla_spec _ _ _ Hval)
    as (T0 & T & it & E0 & Hrun & Hc0 & Hc & _).
  split_and!.
  - intros i a d. by eapply delta_rango.
  - intros T1 Hc1. destruct (pasada_total _ _ _ Hval T1 Hc1) as (T2 & c & E & _).
    eauto.
  - intros fuel. unfold crear_tabla_distinguibilidad, crear_tabla_iteraciones.
    rewrite E0. simpl.
    pose proof (mientras_sin_error estados finales trans fuel T0 0 Hval Hc0).
    destruct (mientras fuel estados trans T0 0) as [[??]| |]; done.
  - exists T. eexists. split_and!; [|done|].
    + intros fuel Hf. unfold crear_tabla_distinguibilidad.
      rewrite Hrun; [done|]. pose proof (pendientes_pares estados T0). lia.
    + apply encontrar_pares_filter. destruct Hval as (Hpos & _).
      by rewrite Z.max_r by lia.
Qed.

Lemma sin_excepciones_witness :
  (∀ i a d, delta [[0; 1]; [0; 1]; [2; 2]] i a = Some d → 0 <= d < 3) ∧
  (∀ T, cuadrada 3 T → ∃ r, pasada 3 [[0; 1]; [0; 1]; [2; 2]] T = Ok r) ∧
  (∀ fuel,
     crear_tabla_distinguibilidad fuel 3 [2] [[0; 1]; [0; 1]; [2; 2]]
     ≠ IndexError) ∧
  ∃ tabla ps,
    (∀ fuel, (length (pares 3) < fuel)%nat →
       crear_tabla_distinguibilidad fuel 3 [2] [[0; 1]; [0; 1]; [2; 2]]
       = Ok tabla) ∧
    cuadrada 3 tabla ∧
    encontrar_pares_equivalentes 3 tabla = Ok ps.
Proof.
  apply (sin_excepciones 3 [2] [[0; 1]; [0; 1]; [2; 2]]).
  vm_compute. reflexivity.
Defined.

(** * Further properties *)

(** ** The pairs returned for a validated input *)

Lemma distinguibles_min_max finales trans i j :
  distinguibles finales trans (Z.min i j) (Z.max i j) ↔
  distinguibles finales trans i j.
Proof.
  destruct (Z.le_ge_cases i j).
  - by rewrite Z.min_l, Z.max_r by lia.
  - rewrite Z.min_r, Z.max_l by lia. split; apply distinguibles_sym.
Qed.

Lemma distinguibles_irrefl finales trans i : ¬ distinguibles finales trans i i.
Proof. intros (w & p & q & Hp & Hq & Hne). congruence. Qed.

(** Both core functions in sequence: the pairs that come out are the pairs
    of states that no string readable from both distinguishes. *)
Lemma pares_sii_indistinguibles estados finales trans fuel tabla ps :
  entrada_valida estados finales trans →
  crear_tabla_distinguibilidad fuel estados finales trans = Ok tabla →
  encontrar_pares_equivalentes estados tabla = Ok ps →
  ps = filter (fun p => no_marcado tabla p = true) (pares estados) ∧
  ∀ i j, (i, j) ∈ ps ↔
         (0 <= i < j ∧ j < estados) ∧ ¬ distinguibles finales trans i j.
Proof.
  intros Hval Hcrear Hpares.
  destruct (crear_tabla_spec _ _ _ Hval)
    as (T0 & T & it & E0 & Hrun & Hc0 & Hc & Hinc & Ht & Hs & Hb & Hcerr & _).
  assert (tabla = T) as ->.
  { unfold crear_tabla_distinguibilidad in Hcrear. inv_bind Hcrear.
    destruct v as [T2 it2]. injection Hcrear as <-.
    specialize (Hrun (S (pendientes estados T0)) ltac:(lia)).
    by pose proof (crear_tabla_iteraciones_det _ _ _ _ _ _ _ E Hrun)
      as [= -> _]. }
  rewrite encontrar_pares_filter in Hpares
    by (destruct Hval as (? & _); by rewrite Z.max_r by lia).
  injection Hpares as <-. split; [done|].
  intros i j. rewrite list_elem_of_filter, elem_of_pares.
  unfold no_marcado. simpl. split.
  - intros [Hm [Hi Hj]]. split; [done|]. intros [w Hw].
    pose proof (cerrada_completa _ _ _ Hval T
                  (fun a b Ha Hb' Hne => Hinc _ _ (Hb a b Ha Hb' Hne))
                  Hcerr w i j ltac:(lia) ltac:(lia) Hw) as Hcomp.
    rewrite Z.min_l, Z.max_r in Hcomp by lia. by rewrite Hcomp in Hm.
  - intros [[Hi Hj] Hn]. split; [|done].
    destruct (celda T i j) eqn:E; [|done]. destruct Hn. by apply Hs.
Qed.

(** Both core functions in sequence always answer on a validated input,
    for every iteration budget above the number of pairs. *)
Lemma pares_indistinguibles_total estados finales trans :
  entrada_valida estados finales trans →
  ∃ tabla ps,
    (∀ fuel, (length (pares estados) < fuel)%nat →
       crear_tabla_distinguibilidad fuel estados finales trans = Ok tabla) ∧
    encontrar_pares_equivalentes estados tabla = Ok ps ∧
    ps = filter (fun p => no_marcado tabla p = true) (pares estados) ∧
    ∀ i j, (i, j) ∈ ps ↔
           (0 <= i < j ∧ j < estados) ∧ ¬ distinguibles finales trans i j.
Proof.
  intros Hval.
  destruct (crear_tabla_spec _ _ _ Hval)
    as (T0 & T & it & E0 & Hrun & Hc0 & Hc & _).
  assert (∀ fuel, (length (pares estados) < fuel)%nat →
            crear_tabla_distinguibilidad fuel estados finales trans = Ok T)
    as Hcrear.
  { intros fuel Hf. unfold crear_tabla_distinguibilidad.
    rewrite Hrun; [done|]. pose proof (pendientes_pares estados T0). lia. }
  assert (encontrar_pares_equivalentes estados T
          = Ok (filter (fun p => no_marcado T p = true) (pares estados)))
    as Hpares.
  { apply encontrar_pares_filter.
    destruct Hval as (? & _). by rewrite Z.max_r by lia. }
  exists T, (filter (fun p => no_marcado T p = true) (pares estados)).
  split_and!; [done..|].
  by apply (pares_sii_indistinguibles estados finales trans
              (S (length (pares estados))) T); [|apply Hcrear; lia|].
Qed.

(** From the pairs no commonly readable string distinguishes to the
    Myhill-Nerode equivalent pairs. *)
Lemma indistinguibles_nerode estados finales trans (ps : list (Z * Z)) :
  entrada_valida estados finales trans →
  (∀ i j, (i, j) ∈ ps ↔
          (0 <= i < j ∧ j < estados) ∧ ¬ distinguibles finales trans i j) →
  (∀ i j, 0 <= i < j → j < estados →
          ¬ nerode_distinguibles finales trans i j → (i, j) ∈ ps) ∧
  ((∃ k, Forall (fun fila => length fila = k) trans) →
   ∀ i j, (i, j) ∈ ps ↔
          (0 <= i < j ∧ j < estados) ∧
          ¬ nerode_distinguibles finales trans i j).
Proof.
  intros Hval Hps. split.
  - intros i j Hi Hj Hn. apply Hps. split; [done|].
    intros Hd. by apply Hn, distinguibles_nerode.
  - intros [k Hk] i j. rewrite Hps. split.
    + intros [Hr Hn]. split; [done|]. intros Hd. apply Hn.
      apply (nerode_distinguibles_uniforme estados finales trans k);
        (done || lia).
    + intros [Hr Hn]. split; [done|]. intros Hd.
      by apply Hn, distinguibles_nerode.
Qed.

(** X1. On a validated input, building the table and extracting the pairs
    always succeeds (with any iteration budget above the number of pairs)
    and yields, in the order of the table, exactly the pairs [i < j] of
    states that no string readable in full from both states distinguishes.
    Every pair of Myhill-Nerode equivalent states is among them, and when
    all rows have the same length the returned pairs are exactly the
    Myhill-Nerode equivalent ones. *)
Theorem pares_equivalentes_exactos estados finales trans :
  snd (validar_entrada estados finales trans) = true →
  ∃ tabla ps,
    (∀ fuel, (length (pares estados) < fuel)%nat →
       crear_tabla_distinguibilidad fuel estados finales trans = Ok tabla) ∧
    encontrar_pares_equivalentes estados tabla = Ok ps ∧
    StronglySorted orden_lex ps ∧
    (∀ i j, (i, j) ∈ ps ↔
            (0 <= i < j ∧ j < estados) ∧ ¬ distinguibles finales trans i j) ∧
    (∀ i j, 0 <= i < j → j < estados →
            ¬ nerode_distinguibles finales trans i j → (i, j) ∈ ps) ∧
    ((∃ k, Forall (fun fila => length fila = k) trans) →
     ∀ i j, (i, j) ∈ ps ↔
            (0 <= i < j ∧ j < estados) ∧
            ¬ nerode_distinguibles finales trans i j).
Proof.
  intros Hval%validar_entrada_valida.
  destruct (pares_indistinguibles_total _ _ _ Hval)
    as (tabla & ps & Hcrear & Hpares & -> & Hps).
  destruct (indistinguibles_nerode _ _ _ _ Hval Hps) as [Hn1 Hn2].
  eexists _, _. split_and!; [done|done| |done..].
  apply filter_ordenado, orden_lex_pares.
Qed.

Lemma pares_equivalentes_exactos_witness :
  ∃ tabla ps,
    (∀ fuel, (length (pares 3) < fuel)%nat →
       crear_tabla_distinguibilidad fuel 3 [2] [[0; 1]; [0; 1]; [2; 2]]
       = Ok tabla) ∧
    encontrar_pares_equivalentes 3 tabla = Ok ps ∧
    StronglySorted orden_lex ps ∧
    (∀ i j, (i, j) ∈ ps ↔
            (0 <= i < j ∧ j < 3) ∧
            ¬ distinguibles [2] [[0; 1]; [0; 1]; [2; 2]] i j) ∧
    (∀ i j, 0 <= i < j → j < 3 →
            ¬ nerode_distinguibles [2] [[0; 1]; [0; 1]; [2; 2]] i j →
            (i, j) ∈ ps) ∧
    ((∃ k, Forall (fun fila => length fila = k) [[0; 1]; [0; 1]; [2; 2]]) →
     ∀ i j, (i, j) ∈ ps ↔
            (0 <= i < j ∧ j < 3) ∧
            ¬ nerode_distinguibles [2] [[0; 1]; [0; 1]; [2; 2]] i j).
Proof.
  apply (pares_equivalentes_exactos 3 [2] [[0; 1]; [0; 1]; [2; 2]]).
  vm_compute. reflexivity.
Defined.

(** X2. The pairs returned for a validated input (they are always returned,
    with any iteration budget above the number of pairs) respect the
    automaton: two states of a pair are both final or both non-final, and
    every symbol present in both rows takes them to the same state or to a
    returned pair.  Merging the states of a pair is therefore consistent
    with the transitions. *)
Theorem pares_cerrados_por_transicion estados finales trans :
  snd (validar_entrada estados finales trans) = true →
  ∃ tabla ps,
    (∀ fuel, (length (pares estados) < fuel)%nat →
       crear_tabla_distinguibilidad fuel estados finales trans = Ok tabla) ∧
    encontrar_pares_equivalentes estados tabla = Ok ps ∧
    ∀ i j, (i, j) ∈ ps →
      pertenece i finales = pertenece j finales ∧
      ∀ a p q, delta trans i a = Some p → delta trans j a = Some q →
               p = q ∨ (Z.min p q, Z.max p q) ∈ ps.
Proof.
  intros Hval%validar_entrada_valida.
  destruct (pares_indistinguibles_total _ _ _ Hval)
    as (tabla & ps & Hcrear & Hpares & _ & Hps).
  exists tabla, ps. split_and!; [done..|]. intros i j Hij.
  apply Hps in Hij as [[Hi Hj] Hn]. split.
  - destruct (pertenece i finales) eqn:Ei, (pertenece j finales) eqn:Ej;
      try done; destruct Hn; exists [], i, j; simpl; by rewrite Ei, Ej.
  - intros a p q Dp Dq. destruct (decide (p = q)) as [|Hne]; [by left|right].
    pose proof (delta_rango _ _ _ Hval _ _ _ Dp).
    pose proof (delta_rango _ _ _ Hval _ _ _ Dq).
    apply Hps. split; [lia|]. rewrite distinguibles_min_max. intros Hd.
    apply Hn. by eapply distinguibles_paso.
Qed.

Lemma pares_cerrados_por_transicion_witness :
  ∃ tabla ps,
    (∀ fuel, (length (pares 3) < fuel)%nat →
       crear_tabla_distinguibilidad fuel 3 [2] [[0; 1]; [0; 1]; [2; 2]]
       = Ok tabla) ∧
    encontrar_pares_equivalentes 3 tabla = Ok ps ∧
    ∀ i j, (i, j) ∈ ps →
      pertenece i [2] = pertenece j [2] ∧
      ∀ a p q, delta [[0; 1]; [0; 1]; [2; 2]] i a = Some p →
               delta [[0; 1]; [0; 1]; [2; 2]] j a = Some q →
               p = q ∨ (Z.min p q, Z.max p q) ∈ ps.
Proof.
  apply (pares_cerrados_por_transicion 3 [2] [[0; 1]; [0; 1]; [2; 2]]).
  vm_compute. reflexivity.
Defined.

(** ** Rows of equal length: the pairs form classes *)

Section clases.
Variables (estados : Z) (finales : list Z) (trans : list (list Z)).
Variable k : nat.
Hypothesis Hval : entrada_valida estados finales trans.
Hypothesis Hunif : Forall (fun fila => length fila = k) trans.

Lemma distinguibles_medio i j l :
  0 <= j < estados → distinguibles finales trans i l →
  distinguibles finales trans i j ∨ distinguibles finales trans j l.
Proof.
  intros Hj (w & p & r & Hp & Hr & Hne).
  destruct (correr_uniforme estados finales trans k w i p j Hval Hunif Hp Hj)
    as [q Hq].
  destruct (decide (pertenece p finales = pertenece q finales)) as [Epq|Epq].
  - right. exists w, q, r. split_and!; [done..|]. congruence.
  - left. by exists w, p, q.
Qed.

End clases.

(** X3. When all rows of a validated input have the same length, the
    pairs are always returned (with any iteration budget above the number
    of pairs) and are the pairs of an equivalence relation on the states:
    "equal, or returned as a pair" is transitive (it is reflexive and
    symmetric as written). *)
Theorem pares_forman_clases estados finales trans k :
  snd (validar_entrada estados finales trans) = true →
  Forall (fun fila => length fila = k) trans →
  ∃ tabla ps,
    (∀ fuel, (length (pares estados) < fuel)%nat →
       crear_tabla_distinguibilidad fuel estados finales trans = Ok tabla) ∧
    encontrar_pares_equivalentes estados tabla = Ok ps ∧
    ∀ i j l, 0 <= j < estados →
      (i = j ∨ (Z.min i j, Z.max i j) ∈ ps) →
      (j = l ∨ (Z.min j l, Z.max j l) ∈ ps) →
      (i = l ∨ (Z.min i l, Z.max i l) ∈ ps).
Proof.
  intros Hval%validar_entrada_valida Hunif.
  destruct (pares_indistinguibles_total _ _ _ Hval)
    as (tabla & ps & Hcrear & Hpares & _ & Hps).
  exists tabla, ps. split_and!; [done..|]. intros i j l Hj.
  intros [->|[Hij Hnij]%Hps]; [done|].
  intros [<-|[Hjl Hnjl]%Hps]; [right; by apply Hps|].
  destruct (decide (i = l)) as [|Hne]; [by left|right].
  apply Hps. split; [lia|]. rewrite distinguibles_min_max in *.
  intros Hd.
  by destruct (distinguibles_medio estados finales trans k Hval Hunif
                 i j l Hj Hd).
Qed.

Lemma pares_forman_clases_witness :
  ∃ tabla ps,
    (∀ fuel, (length (pares 3) < fuel)%nat →
       crear_tabla_distinguibilidad fuel 3 [0; 1; 2]
         [[0; 0]; [0; 0]; [0; 0]] = Ok tabla) ∧
    encontrar_pares_equivalentes 3 tabla = Ok ps ∧
    ∀ i j l, 0 <= j < 3 →
      (i = j ∨ (Z.min i j, Z.max i j) ∈ ps) →
      (j = l ∨ (Z.min j l, Z.max j l) ∈ ps) →
      (i = l ∨ (Z.min i l, Z.max i l) ∈ ps).
Proof.
  apply (pares_forman_clases 3 [0; 1; 2] [[0; 0]; [0; 0]; [0; 0]] 2).
  - vm_compute. reflexivity.
  - repeat constructor.
Defined.

Lemma filter_todos {A} (P : A → Prop) `{!∀ x, Decision (P x)} (l : list A) :
  (∀ x, x ∈ l → P x) → filter P l = l.
Proof.
  induction l as [|x r IH]; intros Hall; [done|].
  rewrite filter_cons, decide_True by (apply Hall; by left).
  f_equal. apply IH. intros y ?. apply Hall. by right.
Qed.

(** X4. When all states are final, or none is, a validated input needs a
    single pass, the table stays all False and every pair [i < j] is
    returned. *)
Theorem misma_finalidad_todos_equivalentes estados finales trans fuel :
  snd (validar_entrada estados finales trans) = true →
  (∀ i j, 0 <= i < estados → 0 <= j < estados →
          pertenece i finales = pertenece j finales) →
  crear_tabla_iteraciones (S fuel) estados finales trans
  = Ok (tabla_inicial estados, 1) ∧
  encontrar_pares_equivalentes estados (tabla_inicial estados)
  = Ok (pares estados).
Proof.
  intros Hval%validar_entrada_valida Hfin.
  assert (∀ i j, 0 <= i < estados → 0 <= j < estados →
                 ¬ distinguibles finales trans i j) as Hnd.
  { intros i j Hi Hj (w & Hw). revert i j Hi Hj Hw.
    induction w as [|a r IH]; intros i j Hi Hj (p & q & Hp & Hq & Hne);
      simpl in Hp, Hq.
    - injection Hp as <-. injection Hq as <-. by apply Hne, Hfin.
    - destruct (delta trans i a) as [i'|] eqn:Di; [|done].
      destruct (delta trans j a) as [j'|] eqn:Dj; [|done].
      apply (IH i' j'); [by eapply delta_rango..|]. by exists p, q. }
  pose proof (tabla_inicial_cuadrada _ _ _ Hval) as Hc.
  assert (∀ a b, celda (tabla_inicial estados) a b = true →
                 distinguibles finales trans a b) as Hs0
    by (intros a b; by rewrite tabla_inicial_celda).
  assert (paso_base estados finales (tabla_inicial estados)
          = Ok (tabla_inicial estados)) as E0.
  { unfold paso_base.
    destruct (for_pares_total (fun t => t = tabla_inicial estados) estados
                (cuerpo_base finales) (tabla_inicial estados))
      as (t & -> & ->); [|done..].
    intros i j t Hi Hj ->. exists (tabla_inicial estados). split; [|done].
    unfold cuerpo_base. rewrite (Hfin i j) by lia.
    by destruct (pertenece j finales). }
  assert (pasada estados trans (tabla_inicial estados)
          = Ok (tabla_inicial estados, false)) as E1.
  { destruct (pasada_total _ _ _ Hval _ Hc) as (T1 & c & E & _).
    destruct c.
    - pose proof (pasada_correcta _ _ _ Hval _ _ _ E Hs0) as Hs1.
      apply pasada_cambio with (finales := finales) in E
        as (_ & i & j & [Hi Hj] & _ & H2); [|done].
      destruct (Hnd i j ltac:(lia) ltac:(lia)). by apply Hs1.
    - pose proof E as E'.
      apply pasada_sin_cambio with (finales := finales) in E' as [-> _];
        done. }
  split.
  - unfold crear_tabla_iteraciones. rewrite E0. simpl. by rewrite E1.
  - rewrite encontrar_pares_filter
      by (destruct Hval as (? & _); by rewrite Z.max_r by lia).
    f_equal. apply filter_todos. intros [i j] _. unfold no_marcado.
    by rewrite tabla_inicial_celda.
Qed.

Lemma misma_finalidad_todos_equivalentes_witness :
  crear_tabla_iteraciones 1 3 [] [[1; 2]; [2]; []]
  = Ok (tabla_inicial 3, 1) ∧
  encontrar_pares_equivalentes 3 (tabla_inicial 3) = Ok (pares 3).
Proof.
  apply (misma_finalidad_todos_equivalentes 3 [] [[1; 2]; [2]; []] 0).
  - vm_compute. reflexivity.
  - intros i j _ _. reflexivity.
Defined.

(** ** The diagnostic of the validator *)

Lemma validar_finales_Some estados fs m :
  validar_finales estados fs = Some m →
  ∃ pre x post, fs = pre ++ x :: post ∧ m = MsgFinal x ∧
                Forall (fun e => 0 <= e < estados) pre ∧
                ¬ (0 <= x < estados).
Proof.
  induction fs as [|e r IH]; simpl; [done|].
  rewrite Z.geb_leb.
  destruct (Z.ltb_spec e 0), (Z.leb_spec estados e); simpl;
    try (intros [= <-]; exists [], e, r; split_and!; [done..|lia]).
  intros (pre & x & post & -> & -> & Hpre & Hx)%IH.
  exists (e :: pre), x, post. split_and!; [done..| |done].
  constructor; [lia|done].
Qed.

Lemma validar_fila_Some estados i j fila m :
  validar_fila estados i j fila = Some m →
  ∃ pre d post, fila = pre ++ d :: post ∧ m = MsgDestino i (j + len pre) d ∧
                Forall (fun d => 0 <= d < estados) pre ∧
                ¬ (0 <= d < estados).
Proof.
  revert j. induction fila as [|d r IH]; intros j; simpl; [done|].
  rewrite Z.geb_leb.
  destruct (Z.ltb_spec d 0), (Z.leb_spec estados d); simpl;
    try (intros [= <-]; exists [], d, r; unfold len; simpl;
         rewrite Z.add_0_r; split_and!; [done..|lia]).
  intros (pre & x & post & -> & -> & Hpre & Hx)%IH.
  exists (d :: pre), x, post. split_and!; [done| |by constructor; [lia|]|done].
  f_equal. unfold len. simpl. lia.
Qed.

Lemma validar_filas_Some estados i trans m :
  validar_filas estados i trans = Some m →
  ∃ antes pre d post despues,
    trans = antes ++ (pre ++ d :: post) :: despues ∧
    m = MsgDestino (i + len antes) (len pre) d ∧
    Forall (Forall (fun d => 0 <= d < estados)) antes ∧
    Forall (fun d => 0 <= d < estados) pre ∧
    ¬ (0 <= d < estados).
Proof.
  revert i. induction trans as [|fila r IH]; intros i; simpl; [done|].
  destruct (validar_fila estados i 0 fila) as [m'|] eqn:E.
  - intros [= <-].
    apply validar_fila_Some in E as (pre & d & post & -> & -> & Hpre & Hd).
    exists [], pre, d, post, r. unfold len at 1. simpl.
    rewrite Z.add_0_r. by split_and!.
  - apply validar_fila_None in E.
    intros (antes & pre & d & post & despues & -> & -> & Ha & Hpre & Hd)%IH.
    exists (fila :: antes), pre, d, post, despues.
    split_and!; [done| |by constructor|done..].
    f_equal. unfold len. simpl. lia.
Qed.

(** X5. When [validar_entrada] fails it prints exactly one diagnostic, for
    the first check that fails in the order: state count, final states, row
    count, targets.  [MsgFinal x] names the first final state out of range;
    [MsgFilas] carries the row count and the state count; [MsgDestino i j d]
    names the first target out of range, [d], met at row [i], column [j]. *)
Theorem validar_entrada_diagnostico estados finales trans :
  snd (validar_entrada estados finales trans) = false →
  ∃ m, fst (validar_entrada estados finales trans) = [m] ∧
    match m with
    | MsgEstados => estados <= 0
    | MsgFinal x =>
        0 < estados ∧
        ∃ pre post, finales = pre ++ x :: post ∧
                    Forall (fun e => 0 <= e < estados) pre ∧
                    ¬ (0 <= x < estados)
    | MsgFilas filas n =>
        0 < estados ∧ Forall (fun e => 0 <= e < estados) finales ∧
        filas = len trans ∧ n = estados ∧ filas ≠ n
    | MsgDestino i j d =>
        0 < estados ∧ Forall (fun e => 0 <= e < estados) finales ∧
        len trans = estados ∧
        ∃ antes pre post despues,
          trans = antes ++ (pre ++ d :: post) :: despues ∧
          i = len antes ∧ j = len pre ∧
          Forall (Forall (fun d => 0 <= d < estados)) antes ∧
          Forall (fun d => 0 <= d < estados) pre ∧
          ¬ (0 <= d < estados)
    end.
Proof.
  unfold validar_entrada.
  destruct (Z.leb_spec estados 0) as [Hn|Hn]; simpl; [by exists MsgEstados|].
  destruct (validar_finales estados finales) as [m|] eqn:Ef; simpl.
  { intros _. exists m. split; [done|].
    apply validar_finales_Some in Ef as (pre & x & post & -> & -> & ? & ?).
    split; [done|]. by exists pre, post. }
  apply validar_finales_None in Ef.
  destruct (Z.eqb_spec (len trans) estados) as [Hl|Hl]; simpl;
    [|intros _; by exists (MsgFilas (len trans) estados)].
  destruct (validar_filas estados 0 trans) as [m|] eqn:Et; simpl; [|done].
  intros _. exists m. split; [done|].
  apply validar_filas_Some in Et
    as (antes & pre & d & post & despues & -> & -> & ? & ? & ?).
  split_and!; [done..|]. exists antes, pre, post, despues.
  by rewrite Z.add_0_l.
Qed.

Lemma validar_entrada_diagnostico_witness :
  ∃ m, fst (validar_entrada 2 [5] []) = [m] ∧
    match m with
    | MsgEstados => 2 <= 0
    | MsgFinal x =>
        0 < 2 ∧
        ∃ pre post, [5] = pre ++ x :: post ∧
                    Forall (fun e => 0 <= e < 2) pre ∧ ¬ (0 <= x < 2)
    | MsgFilas filas n =>
        0 < 2 ∧ Forall (fun e => 0 <= e < 2) [5] ∧
        filas = len (@nil (list Z)) ∧ n = 2 ∧ filas ≠ n
    | MsgDestino i j d =>
        0 < 2 ∧ Forall (fun e => 0 <= e < 2) [5] ∧
        len (@nil (list Z)) = 2 ∧
        ∃ antes pre post despues,
          [] = antes ++ (pre ++ d :: post) :: despues ∧
          i = len antes ∧ j = len pre ∧
          Forall (Forall (fun d => 0 <= d < 2)) antes ∧
          Forall (fun d => 0 <= d < 2) pre ∧
          ¬ (0 <= d < 2)
    end.
Proof.
  apply (validar_entrada_diagnostico 2 [5] []). vm_compute. reflexivity.
Defined.

(** ** formatear_salida *)

Lemma par_le_spec p q :
  par_le p q ↔ fst p < fst q ∨ (fst p = fst q ∧ snd p <= snd q).
Proof.
  unfold par_le, par_leb.
  rewrite orb_true_iff, andb_true_iff, Z.ltb_lt, Z.eqb_eq, Z.leb_le. done.
Qed.

#[local] Instance par_le_trans : Transitive par_le.
Proof. intros p q r. rewrite !par_le_spec. lia. Qed.

#[local] Instance par_le_total : Total par_le.
Proof. intros p q. rewrite !par_le_spec. lia. Qed.

#[local] Instance par_le_antisym : AntiSymm (=) par_le.
Proof.
  intros [a b] [c d]. rewrite !par_le_spec. simpl. intros H1 H2.
  f_equal; lia.
Qed.

Lemma sorted_ordenado l : StronglySorted par_le (sorted l).
Proof. apply StronglySorted_merge_sort; apply _. Qed.

Lemma sorted_permutacion l : sorted l ≡ₚ l.
Proof. apply merge_sort_Permutation. Qed.

Lemma sorted_unico l1 l2 : l1 ≡ₚ l2 → sorted l1 = sorted l2.
Proof.
  intros Hp. apply (StronglySorted_unique par_le); [apply sorted_ordenado..|].
  by rewrite !sorted_permutacion.
Qed.

Lemma sorted_id l : StronglySorted orden_lex l → sorted l = l.
Proof.
  intros Hs. apply (StronglySorted_unique par_le);
    [apply sorted_ordenado| |apply sorted_permutacion].
  induction Hs as [|p l Hl IH Hp]; constructor; [done|].
  eapply Forall_impl; [done|]. intros q Hq. apply par_le_spec.
  unfold orden_lex in Hq. lia.
Qed.

(** X6. The output of [formatear_salida] depends only on which pairs are
    given, not on their order. *)
Theorem formatear_salida_permutacion ps qs :
  ps ≡ₚ qs → formatear_salida ps = formatear_salida qs.
Proof.
  intros Hp. unfold formatear_salida. destruct ps as [|p ps], qs as [|q qs].
  - done.
  - by apply Permutation_nil_cons in Hp.
  - symmetry in Hp. by apply Permutation_nil_cons in Hp.
  - by rewrite (sorted_unico _ _ Hp).
Qed.

Lemma formatear_salida_permutacion_witness :
  formatear_salida [(1, 2); (0, 3)] = formatear_salida [(0, 3); (1, 2)].
Proof.
  apply (formatear_salida_permutacion [(1, 2); (0, 3)] [(0, 3); (1, 2)]).
  apply perm_swap.
Defined.

(** X7. The pairs returned by [encontrar_pares_equivalentes] over a table
    built for [estados] states are already in the order [formatear_salida]
    sorts into: they are printed in the order of the table, joined by single
    spaces. *)
Theorem formatear_salida_orden_tabla estados tabla ps :
  cuadrada (Z.max 0 estados) tabla →
  encontrar_pares_equivalentes estados tabla = Ok ps →
  sorted ps = ps ∧
  formatear_salida ps
  = match ps with
    | [] => "None"
    | _ => String.concat " " (map formato_par ps)
    end.
Proof.
  intros Hc Hps. rewrite (encontrar_pares_filter _ _ Hc) in Hps.
  injection Hps as <-.
  assert (sorted (filter (fun p => no_marcado tabla p = true) (pares estados))
          = filter (fun p => no_marcado tabla p = true) (pares estados)) as Hs
    by apply sorted_id, filter_ordenado, orden_lex_pares.
  split; [done|]. unfold formatear_salida. by rewrite Hs.
Qed.

Lemma formatear_salida_orden_tabla_witness :
  sorted [(0, 1)] = [(0, 1)] ∧
  formatear_salida [(0, 1)]
  = match [(0, 1)] with
    | [] => "None"
    | _ => String.concat " " (map formato_par [(0, 1)])
    end.
Proof.
  apply (formatear_salida_orden_tabla 3
           [[false; false; true]; [false; false; true];
            [false; false; false]] [(0, 1)]).
  - split; [reflexivity|]. repeat constructor.
  - vm_compute. reflexivity.
Defined.

Lemma concat_formato_inicio l :
  l ≠ [] → ∃ s, String.concat " " (map formato_par l) = "(" +:+ s.
Proof.
  destruct l as [|p [|q r]]; [done| |]; intros _; simpl; eauto.
Qed.

(** X8. [formatear_salida] returns the text None exactly for the empty
    list, and the text for a non-empty list starts with an opening
    parenthesis. *)
Theorem formatear_salida_None ps :
  (formatear_salida ps = "None" ↔ ps = []) ∧
  (ps ≠ [] → ∃ s, formatear_salida ps = "(" +:+ s).
Proof.
  assert (ps ≠ [] → ∃ s, formatear_salida ps = "(" +:+ s) as Hinicio.
  { unfold formatear_salida. destruct ps as [|p ps]; [done|]. intros _.
    apply concat_formato_inicio. intros Hnil.
    pose proof (sorted_permutacion (p :: ps)) as Hp.
    rewrite Hnil in Hp. by apply Permutation_nil_cons in Hp. }
  split; [|done]. split; [|by intros ->].
  intros H. destruct ps as [|p ps]; [done|].
  destruct Hinicio as [s Hs]; [done|]. rewrite Hs in H. discriminate.
Qed.

Lemma formatear_salida_None_witness :
  formatear_salida [(1, 2); (0, 1)] ≠ "None" ∧
  ∃ s, formatear_salida [(1, 2); (0, 1)] = "(" +:+ s.
Proof.
  pose proof (formatear_salida_None [(1, 2); (0, 1)]) as [Hn Hi].
  split.
  - intros H. apply Hn in H. discriminate.
  - apply Hi. discriminate.
Defined.

(** *** The text determines the pairs *)

Section texto.
#[local] Arguments String.append !_ _ / : simpl nomatch.

Lemma append_asociativa (s1 s2 s3 : string) :
  (s1 +:+ s2) +:+ s3 = s1 +:+ (s2 +:+ s3).
Proof. induction s1 as [|a r IH]; simpl; [done|]. by rewrite IH. Qed.

Lemma pretty_N_go_sin c x s :
  (∀ d, pretty_N_char d ≠ c) → sin_caracter c s →
  sin_caracter c (pretty_N_go x s).
Proof.
  intros Hc. revert s. induction (N.lt_wf_0 x) as [x _ IH]; intros s Hs.
  assert (x = 0 ∨ 0 < x)%N as [->|Hx] by lia.
  - by rewrite pretty_N_go_0.
  - rewrite pretty_N_go_step by done. apply IH; [by apply N.div_lt|].
    simpl. split; [apply Hc|done].
Qed.

Lemma pretty_Z_sin c (z : Z) :
  (∀ d, pretty_N_char d ≠ c) → c ≠ "-"%char →
  sin_caracter c (pretty z).
Proof.
  intros Hc Hm.
  assert (∀ p : positive, sin_caracter c (pretty p)) as Hpos.
  { intros p. unfold pretty, pretty_positive, pretty, pretty_N.
    destruct (decide _); [done|]. by apply pretty_N_go_sin. }
  unfold pretty, pretty_Z. destruct z as [|p|p].
  - simpl. split; [apply (Hc 0%N)|done].
  - apply Hpos.
  - simpl. split; [congruence|apply Hpos].
Qed.

(** Two texts that agree and are cut at the first [c] agree on both sides
    of it. *)
Lemma corte c s1 s2 r1 r2 :
  sin_caracter c s1 → sin_caracter c s2 →
  s1 +:+ String c r1 = s2 +:+ String c r2 → s1 = s2 ∧ r1 = r2.
Proof.
  revert s2. induction s1 as [|a s1 IH]; intros [|b s2]; simpl.
  - intros _ _ [= ->]. done.
  - intros _ [Hb _] [= -> _]. done.
  - intros [Ha _] _ [= -> _]. done.
  - intros [_ H1] [_ H2] [= -> H]. by destruct (IH s2 H1 H2 H) as [-> ->].
Qed.

Lemma formato_par_corte p q r r' :
  formato_par p +:+ r = formato_par q +:+ r' → p = q ∧ r = r'.
Proof.
  destruct p as [a b], q as [a' b']. unfold formato_par. simpl fst.
  simpl snd. rewrite !append_asociativa. simpl.
  intros [= H].
  assert (∀ d, pretty_N_char d ≠ ","%char) as Hcoma
    by (intros d; unfold pretty_N_char; by repeat case_match).
  assert (∀ d, pretty_N_char d ≠ ")"%char) as Hpar
    by (intros d; unfold pretty_N_char; by repeat case_match).
  apply corte in H as [Ha H]; [|by apply pretty_Z_sin..].
  apply corte in H as [Hb H]; [|by apply pretty_Z_sin..].
  apply (inj pretty) in Ha, Hb. by subst.
Qed.

Lemma concat_formato_inj l l' :
  String.concat " " (map formato_par l) = String.concat " " (map formato_par l')
  → l = l'.
Proof.
  assert (∀ s : string, s = s +:+ "") as Hnil
    by (induction s; simpl; congruence).
  revert l'. induction l as [|p l IH]; intros [|q l'].
  - done.
  - intros H. destruct (concat_formato_inicio (q :: l')) as [s Hs]; [done|].
    rewrite Hs in H. discriminate.
  - intros H. destruct (concat_formato_inicio (p :: l)) as [s Hs]; [done|].
    rewrite Hs in H. discriminate.
  - destruct l as [|p2 l], l' as [|q2 l'].
    + simpl. rewrite (Hnil (formato_par p)), (Hnil (formato_par q)).
      by intros [-> _]%formato_par_corte.
    + simpl. rewrite (Hnil (formato_par p)).
      by intros [_ ?]%formato_par_corte.
    + simpl. rewrite (Hnil (formato_par q)).
      by intros [_ ?]%formato_par_corte.
    + change (formato_par p +:+ " " +:+
                String.concat " " (map formato_par (p2 :: l))
              = formato_par q +:+ " " +:+
                String.concat " " (map formato_par (q2 :: l'))
              → p :: p2 :: l = q :: q2 :: l').
      intros [-> [= H]]%formato_par_corte. f_equal. by apply IH.
Qed.

End texto.

Lemma texto_no_vacio_no_None p ps :
  String.concat " " (map formato_par (sorted (p :: ps))) ≠ "None".
Proof.
  destruct (concat_formato_inicio (sorted (p :: ps))) as [s Hs].
  - intros Hnil. pose proof (sorted_permutacion (p :: ps)) as Hp.
    rewrite Hnil in Hp. by apply Permutation_nil_cons in Hp.
  - rewrite Hs. discriminate.
Qed.

(** X9. The text returned by [formatear_salida] determines the pairs: two
    lists with the same text hold the same pairs, up to their order. *)
Theorem formatear_salida_inyectiva ps qs :
  formatear_salida ps = formatear_salida qs → ps ≡ₚ qs.
Proof.
  unfold formatear_salida. destruct ps as [|p ps], qs as [|q qs].
  - done.
  - intros H. symmetry in H. by apply texto_no_vacio_no_None in H.
  - intros H. by apply texto_no_vacio_no_None in H.
  - intros H%concat_formato_inj.
    by rewrite <- (sorted_permutacion (p :: ps)), H, sorted_permutacion.
Qed.

Lemma formatear_salida_inyectiva_witness : [(0, 1); (2, 3)] ≡ₚ [(2, 3); (0, 1)].
Proof.
  apply (formatear_salida_inyectiva [(0, 1); (2, 3)] [(2, 3); (0, 1)]).
  vm_compute. reflexivity.
Defined.

(** ** procesar_caso_prueba *)

Lemma range_cons a b : a < b → range a b = a :: range (a + 1) b.
Proof.
  intros Hab. unfold range. rewrite seqZ_cons by lia.
  by replace (Z.pred (b - a)) with (b - (a + 1)) by lia.
Qed.

Lemma range_nil a b : b <= a → range a b = [].
Proof. intros Hab. unfold range. apply seqZ_nil. lia. Qed.

Section procesar.
Variable B : builtins.

Lemma leer_filas filas trans acc cola out a b :
  Forall2 (fun l fila => enteros_de B l = Some fila) filas trans →
  b - a = len filas →
  para (range a b) (cuerpo_transiciones B) acc (Mundo (filas ++ cola) out)
  = (Valor (acc ++ trans), Mundo cola out).
Proof.
  intros HF. revert a acc.
  induction HF as [|l fila filas trans Hl HF IH]; intros a acc Hab.
  - rewrite range_nil by (unfold len in Hab; simpl in Hab; lia).
    by rewrite app_nil_r.
  - rewrite range_cons by (unfold len in Hab; simpl in Hab; lia).
    simpl. unfold ligar at 1. unfold cuerpo_transiciones at 1.
    unfold ligar at 1, input at 1. simpl.
    unfold ligar at 1, enteros at 1. unfold enteros_de in Hl. rewrite Hl.
    simpl. rewrite IH by (unfold len in *; simpl in Hab; lia).
    by rewrite <- app_assoc.
Qed.

Lemma leer_filas_fin filas acc out a b :
  Forall (fun l => is_Some (enteros_de B l)) filas →
  len filas < b - a →
  para (range a b) (cuerpo_transiciones B) acc (Mundo filas out)
  = (Lanza EOFError, Mundo [] out).
Proof.
  intros HF. revert a acc.
  induction HF as [|l filas [fila Hl] HF IH]; intros a acc Hab.
  - rewrite range_cons by (unfold len in Hab; simpl in Hab; lia). done.
  - rewrite range_cons by (unfold len in Hab; simpl in Hab; lia).
    simpl. unfold ligar at 1. unfold cuerpo_transiciones at 1.
    unfold ligar at 1, input at 1. simpl.
    unfold ligar at 1, enteros at 1. unfold enteros_de in Hl. rewrite Hl.
    simpl. apply IH. unfold len in *. simpl in Hab. lia.
Qed.

(** The case read and validated: what is left to run is the core. *)
Lemma procesar_caso_leido fuel l0 la lf filas cola out n finales trans :
  py_int B (py_strip B l0) = Some n → 0 < n →
  len filas = n → finales_de B lf = Some finales →
  Forall2 (fun l fila => enteros_de B l = Some fila) filas trans →
  procesar_caso_prueba B fuel (Mundo (l0 :: la :: lf :: filas ++ cola) out)
  = let w := Mundo cola (out ++ map ImpValidacion
                                  (fst (validar_entrada n finales trans))) in
    if snd (validar_entrada n finales trans) then
      match crear_tabla_distinguibilidad fuel n finales trans with
      | Ok tabla =>
          match encontrar_pares_equivalentes n tabla with
          | Ok ps => (Valor (Some ps), w)
          | IndexError =>
              (Valor None,
               Mundo cola (salida w ++ [ImpInesperado ErrorIndice]))
          | SinFuel => (Agotado, w)
          end
      | IndexError =>
          (Valor None, Mundo cola (salida w ++ [ImpInesperado ErrorIndice]))
      | SinFuel => (Agotado, w)
      end
    else (Valor None, w).
Proof.
  intros Hn Hpos Hlen Hfin Hfilas.
  unfold procesar_caso_prueba, atrapar. unfold ligar at 1, input at 1.
  cbn [lineas salida]. unfold ligar at 1, int_ at 1. rewrite Hn.
  cbn [ret]. destruct (Z.leb_spec n 0) as [|_]; [lia|].
  unfold ligar at 1, input at 1. cbn [lineas salida].
  unfold ligar at 1, input at 1. cbn [lineas salida].
  unfold ligar at 1.
  assert ((if String.eqb (py_strip B lf) ""
           then ret []
           else enteros B (py_split B (py_strip B lf)))
            (Mundo (filas ++ cola) out)
          = (Valor finales, Mundo (filas ++ cola) out)) as ->.
  { unfold finales_de, enteros_de in Hfin. unfold enteros.
    destruct (String.eqb (py_strip B lf) "");
      [by injection Hfin as <-|by rewrite Hfin]. }
  unfold ligar at 1.
  rewrite (leer_filas filas trans [] cola out 0 n Hfilas) by lia.
  rewrite app_nil_l. unfold ligar at 1, validar_entrada_io at 1.
  cbn [lineas salida].
  destruct (validar_entrada n finales trans) as [ms [|]]; cbn [fst snd negb];
    [|done].
  unfold ligar at 1, elevar at 1.
  destruct (crear_tabla_distinguibilidad fuel n finales trans)
    as [tabla| |]; [|done..].
  unfold ligar at 1, elevar at 1.
  by destruct (encontrar_pares_equivalentes n tabla).
Qed.

End procesar.

Lemma validar_entrada_sin_mensajes estados finales trans :
  snd (validar_entrada estados finales trans) = true →
  fst (validar_entrada estados finales trans) = [].
Proof.
  unfold validar_entrada. destruct (estados <=? 0); [done|].
  destruct (validar_finales _ _); [done|].
  destruct (negb _); [done|]. by destruct (validar_filas _ _ _).
Qed.

(** X10. What [procesar_caso_prueba] consumes.  When the first line holds a
    state count that is not positive, only that line is consumed: the other
    lines of the case stay in the input.  When it holds a positive count [n]
    and the case that follows is well formed (alphabet line, final states,
    [n] rows of integers), exactly those [n + 3] lines are consumed, whether
    the case is then accepted or not. *)
Theorem procesar_caso_prueba_consume B fuel l0 resto out n :
  py_int B (py_strip B l0) = Some n →
  (n <= 0 →
   procesar_caso_prueba B fuel (Mundo (l0 :: resto) out)
   = (Valor None, Mundo resto (out ++ [ImpValidacion MsgEstados]))) ∧
  (0 < n →
   ∀ la lf filas cola finales trans,
     resto = la :: lf :: filas ++ cola → len filas = n →
     finales_de B lf = Some finales →
     Forall2 (fun l fila => enteros_de B l = Some fila) filas trans →
     ∃ r out', procesar_caso_prueba B fuel (Mundo (l0 :: resto) out)
               = (r, Mundo cola out')).
Proof.
  intros Hn. split.
  - intros Hle. unfold procesar_caso_prueba, atrapar.
    unfold ligar at 1, input at 1. cbn [lineas salida].
    unfold ligar at 1, int_ at 1. rewrite Hn. cbn [ret].
    by destruct (Z.leb_spec n 0) as [_|]; [|lia].
  - intros Hpos la lf filas cola finales trans -> Hlen Hfin Hfilas.
    rewrite (procesar_caso_leido B fuel l0 la lf filas cola out n finales
               trans) by done.
    cbv zeta. destruct (snd (validar_entrada n finales trans)); [|eauto].
    destruct (crear_tabla_distinguibilidad fuel n finales trans)
      as [tabla| |]; [|eauto..].
    destruct (encontrar_pares_equivalentes n tabla); eauto.
Qed.

Lemma procesar_caso_prueba_consume_witness :
  (3 <= 0 →
   procesar_caso_prueba builtins_muestra 2
     (Mundo ["3"; "a b"; "2"; "0 1"; "0 1"; "2 2"; "1"] [])
   = (Valor None,
      Mundo ["a b"; "2"; "0 1"; "0 1"; "2 2"; "1"]
            ([] ++ [ImpValidacion MsgEstados]))) ∧
  (0 < 3 →
   ∀ la lf filas cola finales trans,
     ["a b"; "2"; "0 1"; "0 1"; "2 2"; "1"] = la :: lf :: filas ++ cola →
     len filas = 3 →
     finales_de builtins_muestra lf = Some finales →
     Forall2 (fun l fila => enteros_de builtins_muestra l = Some fila)
             filas trans →
     ∃ r out',
       procesar_caso_prueba builtins_muestra 2
         (Mundo ["3"; "a b"; "2"; "0 1"; "0 1"; "2 2"; "1"] [])
       = (r, Mundo cola out')).
Proof.
  apply (procesar_caso_prueba_consume builtins_muestra 2 "3"
           ["a b"; "2"; "0 1"; "0 1"; "2 2"; "1"] [] 3).
  vm_compute. reflexivity.
Defined.

(** X11. A well-formed case is answered.  If the input fails validation,
    the result is [None], the validator's diagnostic is printed and the
    case's lines are consumed.  Otherwise nothing is printed and the result
    is the list, in ascending order, of exactly the pairs [i < j] of states
    that no string readable in full from both states distinguishes.  Every
    pair of Myhill-Nerode equivalent states is in that list, and when all
    rows have the same length the list holds exactly the Myhill-Nerode
    equivalent pairs. *)
Theorem procesar_caso_prueba_correcto B fuel l0 la lf filas cola out n
    finales trans :
  py_int B (py_strip B l0) = Some n → 0 < n →
  len filas = n → finales_de B lf = Some finales →
  Forall2 (fun l fila => enteros_de B l = Some fila) filas trans →
  (length (pares n) < fuel)%nat →
  if snd (validar_entrada n finales trans) then
    ∃ ps,
      procesar_caso_prueba B fuel
        (Mundo (l0 :: la :: lf :: filas ++ cola) out)
      = (Valor (Some ps), Mundo cola out) ∧
      StronglySorted orden_lex ps ∧
      (∀ i j, (i, j) ∈ ps ↔
              (0 <= i < j ∧ j < n) ∧ ¬ distinguibles finales trans i j) ∧
      (∀ i j, 0 <= i < j → j < n →
              ¬ nerode_distinguibles finales trans i j → (i, j) ∈ ps) ∧
      ((∃ k, Forall (fun fila => length fila = k) trans) →
       ∀ i j, (i, j) ∈ ps ↔
              (0 <= i < j ∧ j < n) ∧
              ¬ nerode_distinguibles finales trans i j)
  else
    procesar_caso_prueba B fuel (Mundo (l0 :: la :: lf :: filas ++ cola) out)
    = (Valor None,
       Mundo cola (out ++ map ImpValidacion
                            (fst (validar_entrada n finales trans)))).
Proof.
  intros Hn Hpos Hlen Hfin Hfilas Hfuel.
  rewrite (procesar_caso_leido B fuel l0 la lf filas cola out n finales trans)
    by done.
  cbv zeta. destruct (snd (validar_entrada n finales trans)) eqn:Hv; [|done].
  rewrite (validar_entrada_sin_mensajes _ _ _ Hv). simpl. rewrite app_nil_r.
  pose proof Hv as Hval. apply validar_entrada_valida in Hval.
  destruct (crear_tabla_spec _ _ _ Hval)
    as (T0 & T & it & _ & Hrun & _ & Hc & _).
  assert (crear_tabla_distinguibilidad fuel n finales trans = Ok T) as Hcrear.
  { unfold crear_tabla_distinguibilidad. rewrite Hrun; [done|].
    pose proof (pendientes_pares n T0). lia. }
  rewrite Hcrear.
  assert (encontrar_pares_equivalentes n T
          = Ok (filter (fun p => no_marcado T p = true) (pares n))) as Hpares.
  { apply encontrar_pares_filter. by rewrite Z.max_r by lia. }
  rewrite Hpares. eexists. split; [done|].
  destruct (pares_sii_indistinguibles _ _ _ _ _ _ Hval Hcrear Hpares)
    as [_ Hps].
  destruct (indistinguibles_nerode _ _ _ _ Hval Hps) as [Hn1 Hn2].
  split_and!; [apply filter_ordenado, orden_lex_pares|done..].
Qed.

Lemma procesar_caso_prueba_correcto_witness :
  if snd (validar_entrada 3 [2] [[0; 1]; [0; 1]; [2; 2]]) then
    ∃ ps,
      procesar_caso_prueba builtins_muestra 4
        (Mundo ("3" :: "a b" :: "2" :: ["0 1"; "0 1"; "2 2"] ++ ["1"]) [])
      = (Valor (Some ps), Mundo ["1"] []) ∧
      StronglySorted orden_lex ps ∧
      (∀ i j, (i, j) ∈ ps ↔
              (0 <= i < j ∧ j < 3) ∧
              ¬ distinguibles [2] [[0; 1]; [0; 1]; [2; 2]] i j) ∧
      (∀ i j, 0 <= i < j → j < 3 →
              ¬ nerode_distinguibles [2] [[0; 1]; [0; 1]; [2; 2]] i j →
              (i, j) ∈ ps) ∧
      ((∃ k, Forall (fun fila => length fila = k)
               [[0; 1]; [0; 1]; [2; 2]]) →
       ∀ i j, (i, j) ∈ ps ↔
              (0 <= i < j ∧ j < 3) ∧
              ¬ nerode_distinguibles [2] [[0; 1]; [0; 1]; [2; 2]] i j)
  else
    procesar_caso_prueba builtins_muestra 4
      (Mundo ("3" :: "a b" :: "2" :: ["0 1"; "0 1"; "2 2"] ++ ["1"]) [])
    = (Valor None,
       Mundo ["1"]
         ([] ++ map ImpValidacion
                  (fst (validar_entrada 3 [2] [[0; 1]; [0; 1]; [2; 2]])))).
Proof.
  apply (procesar_caso_prueba_correcto builtins_muestra 4 "3" "a b" "2"
           ["0 1"; "0 1"; "2 2"] ["1"] [] 3 [2] [[0; 1]; [0; 1]; [2; 2]]).
  - vm_compute. reflexivity.
  - lia.
  - reflexivity.
  - vm_compute. reflexivity.
  - repeat constructor.
  - vm_compute. lia.
Defined.

(** X12. A case cut short by the end of the input is reported as an
    unexpected error: when the state count [n] is positive, fewer than
    [n + 2] lines follow it and those that do are well formed, the result is
    [None], the EOFError raised by [input] is printed by the catch-all
    clause, and no line is left. *)
Theorem procesar_caso_prueba_fin_entrada B fuel l0 resto out n :
  py_int B (py_strip B l0) = Some n → 0 < n → len resto < n + 2 →
  (∀ lf, resto !! 1%nat = Some lf → is_Some (finales_de B lf)) →
  Forall (fun l => is_Some (enteros_de B l)) (drop 2 resto) →
  procesar_caso_prueba B fuel (Mundo (l0 :: resto) out)
  = (Valor None, Mundo [] (out ++ [ImpInesperado EOFError])).
Proof.
  intros Hn Hpos Hlen Hfin Hfilas.
  unfold procesar_caso_prueba, atrapar. unfold ligar at 1, input at 1.
  cbn [lineas salida]. unfold ligar at 1, int_ at 1. rewrite Hn.
  cbn [ret]. destruct (Z.leb_spec n 0) as [|_]; [lia|].
  destruct resto as [|la [|lf filas]]; [done..|].
  unfold ligar at 1, input at 1. cbn [lineas salida].
  unfold ligar at 1, input at 1. cbn [lineas salida].
  destruct (Hfin lf eq_refl) as [finales Hf].
  unfold ligar at 1.
  assert ((if String.eqb (py_strip B lf) ""
           then ret []
           else enteros B (py_split B (py_strip B lf)))
            (Mundo filas out)
          = (Valor finales, Mundo filas out)) as ->.
  { unfold finales_de, enteros_de in Hf. unfold enteros.
    destruct (String.eqb (py_strip B lf) "");
      [by injection Hf as <-|by rewrite Hf]. }
  unfold ligar at 1. simpl in Hfilas.
  rewrite (leer_filas_fin B filas [] out 0 n Hfilas); [done|].
  unfold len in *. simpl in Hlen. lia.
Qed.

Lemma procesar_caso_prueba_fin_entrada_witness :
  procesar_caso_prueba builtins_muestra 4 (Mundo ["3"; "a b"; "2"; "0 1"] [])
  = (Valor None, Mundo [] ([] ++ [ImpInesperado EOFError])).
Proof.
  apply (procesar_caso_prueba_fin_entrada builtins_muestra 4 "3"
           ["a b"; "2"; "0 1"] [] 3).
  - vm_compute. reflexivity.
  - lia.
  - vm_compute. reflexivity.
  - intros lf [= <-]. vm_compute. eauto.
  - repeat constructor; vm_compute; eauto.
Defined.

(** ** main *)

Lemma casos_anunciados_app l1 l2 :
  casos_anunciados (l1 ++ l2) = casos_anunciados l1 ++ casos_anunciados l2.
Proof. apply omap_app. Qed.

Lemma discreta_ret {A} (a : A) : discreta (ret a).
Proof. intros w r w' [= <- <-]. done. Qed.

Lemma discreta_lanzar {A} e : es_Exception e = true → discreta (@lanzar A e).
Proof.
  intros He w r w' [= <- <-]. split; [|done]. intros c [= ->]. done.
Qed.

Lemma discreta_input : discreta input.
Proof.
  intros w r w'. unfold input. destruct (lineas w); intros [= <- <-]; done.
Qed.

Lemma discreta_print m : (∀ c, m ≠ ImpCaso c) → discreta (print m).
Proof.
  intros Hm w r w' [= <- <-]. split; [done|]. simpl.
  rewrite casos_anunciados_app.
  destruct m as [| | | | | | | | |caso| | | | | | | |];
    try (simpl; by rewrite app_nil_r).
  by destruct (Hm caso).
Qed.

Lemma discreta_ligar {A C} (m : io A) (k : A → io C) :
  discreta m → (∀ a, discreta (k a)) → discreta (ligar m k).
Proof.
  intros Hm Hk w r w'. unfold ligar.
  destruct (m w) as [[a|e|] w1] eqn:E; destruct (Hm _ _ _ E) as [Hx Hc].
  - intros [Hx' Hc']%Hk. split; [done|]. congruence.
  - intros [= <- <-]. split; [|done]. intros c [= ->]. by apply (Hx c).
  - intros [= <- <-]. by split.
Qed.

Lemma discreta_para {S} l (cuerpo : Z → S → io S) s :
  (∀ x t, discreta (cuerpo x t)) → discreta (para l cuerpo s).
Proof.
  intros Hc. revert s. induction l as [|x r IH]; intros s; simpl.
  - apply discreta_ret.
  - apply discreta_ligar; [apply Hc|apply IH].
Qed.

Lemma discreta_elevar {A} (r : res A) : discreta (elevar r).
Proof. intros w r' w'. unfold elevar. destruct r; intros [= <- <-]; done. Qed.

Lemma discreta_int B s : discreta (int_ B s).
Proof.
  unfold int_. destruct (py_int B s);
    [apply discreta_ret|by apply discreta_lanzar].
Qed.

Lemma discreta_enteros B tokens : discreta (enteros B tokens).
Proof.
  unfold enteros. destruct (mapM _ _);
    [apply discreta_ret|by apply discreta_lanzar].
Qed.

Lemma discreta_validar estados finales trans :
  discreta (validar_entrada_io estados finales trans).
Proof.
  intros w r w'. unfold validar_entrada_io.
  destruct (validar_entrada estados finales trans) as [ms v].
  intros [= <- <-]. split; [done|]. simpl. rewrite casos_anunciados_app.
  replace (casos_anunciados (map ImpValidacion ms)) with (@nil Z);
    [by rewrite app_nil_r|].
  induction ms; [done|simpl; done].
Qed.

Lemma discreta_atrapar {A} (m : io A) manejador :
  discreta m → (∀ e k, manejador e = Some k → discreta k) →
  discreta (atrapar m manejador).
Proof.
  intros Hm Hh w r w'. unfold atrapar.
  destruct (m w) as [[a|e|] w1] eqn:E; destruct (Hm _ _ _ E) as [Hx Hc].
  - intros [= <- <-]. by split.
  - destruct (manejador e) as [k|] eqn:Ek.
    + intros [Hx' Hc']%(Hh e k Ek). split; [done|]. congruence.
    + intros [= <- <-]. by split.
  - intros [= <- <-]. by split.
Qed.

Lemma procesar_caso_prueba_discreta B fuel :
  discreta (procesar_caso_prueba B fuel).
Proof.
  unfold procesar_caso_prueba. apply discreta_atrapar.
  - apply discreta_ligar; [apply discreta_input|]. intros l.
    apply discreta_ligar; [apply discreta_int|]. intros estados.
    destruct (estados <=? 0).
    { apply discreta_ligar; [by apply discreta_print|]. intros _.
      apply discreta_ret. }
    apply discreta_ligar; [apply discreta_input|]. intros _.
    apply discreta_ligar; [apply discreta_input|]. intros lf.
    apply discreta_ligar.
    { destruct (String.eqb _ _); [apply discreta_ret|apply discreta_enteros]. }
    intros finales. apply discreta_ligar.
    { apply discreta_para. intros x t. unfold cuerpo_transiciones.
      apply discreta_ligar; [apply discreta_input|]. intros l'.
      apply discreta_ligar; [apply discreta_enteros|]. intros fila.
      apply discreta_ret. }
    intros trans. apply discreta_ligar; [apply discreta_validar|].
    intros valida. destruct (negb valida); [apply discreta_ret|].
    apply discreta_ligar; [apply discreta_elevar|]. intros tabla.
    apply discreta_ligar; [apply discreta_elevar|]. intros ps.
    apply discreta_ret.
  - intros e k Hk. destruct e; simplify_eq;
      (apply discreta_ligar; [by apply discreta_print|]);
      intros _; apply discreta_ret.
Qed.

(** [procesar_caso_prueba] lets no exception out. *)
Lemma procesar_caso_prueba_no_lanza B fuel w e w' :
  procesar_caso_prueba B fuel w ≠ (Lanza e, w').
Proof.
  intros H. pose proof H as Hd.
  apply procesar_caso_prueba_discreta in Hd as [Hx _].
  unfold procesar_caso_prueba, atrapar in H.
  match type of H with
  | context [match ?m w with _ => _ end] =>
      destruct (m w) as [[a|e0|] w1] eqn:E
  end; [done| |done].
  destruct e0; try (by injection H); try discriminate.
  by destruct (Hx codigo); injection H as <- _.
Qed.

Lemma cuerpo_caso_anuncia B fuel caso w r w' :
  cuerpo_caso B fuel caso tt w = (r, w') →
  r = Agotado ∨
  (r = Valor tt ∧
   casos_anunciados (salida w') = casos_anunciados (salida w) ++ [caso]).
Proof.
  unfold cuerpo_caso. unfold ligar at 1, print at 1.
  unfold ligar at 1, print at 1. unfold ligar at 1. cbn [lineas salida].
  destruct (procesar_caso_prueba B fuel _) as [[x|e|] w3] eqn:E.
  - apply procesar_caso_prueba_discreta in E as [_ Hc]. simpl in Hc.
    rewrite !casos_anunciados_app in Hc. simpl in Hc.
    rewrite app_nil_r in Hc.
    destruct x as [[|p ps]|]; unfold ligar, print; intros [= <- <-];
      right; (split; [done|]); simpl; rewrite !casos_anunciados_app;
      simpl; by rewrite ?app_nil_r.
  - by apply procesar_caso_prueba_no_lanza in E.
  - intros [= <- _]. by left.
Qed.

Lemma casos_anuncian B fuel l w r w' :
  para l (cuerpo_caso B fuel) tt w = (r, w') →
  r = Agotado ∨
  (r = Valor tt ∧
   casos_anunciados (salida w') = casos_anunciados (salida w) ++ l).
Proof.
  revert w. induction l as [|caso l IH]; intros w; simpl.
  - intros [= <- <-]. right. by rewrite app_nil_r.
  - unfold ligar at 1.
    destruct (cuerpo_caso B fuel caso tt w) as [[[]|e|] w1] eqn:E;
      apply cuerpo_caso_anuncia in E as [?|[? Hc]]; try done.
    + intros [?|[-> Hc']]%IH; [by left|right]. split; [done|].
      by rewrite Hc', Hc, <- app_assoc.
    + intros [= <- _]. by left.
Qed.

(** *** Lines are only consumed, output is only added to *)

Lemma progresa_ret {A} (a : A) : progresa (ret a).
Proof. intros w r w' [= <- <-]. split; [done|]. exists []. by rewrite app_nil_r. Qed.

Lemma progresa_lanzar {A} e : progresa (@lanzar A e).
Proof. intros w r w' [= <- <-]. split; [done|]. exists []. by rewrite app_nil_r. Qed.

Lemma progresa_input : progresa input.
Proof.
  intros w r w'. unfold input. destruct (lineas w) as [|l ls] eqn:E;
    intros [= <- <-]; rewrite ?E; simpl;
    (split; [lia|]); exists []; by rewrite app_nil_r.
Qed.

Lemma progresa_print m : progresa (print m).
Proof. intros w r w' [= <- <-]. split; [done|]. by exists [m]. Qed.

Lemma progresa_ligar {A C} (m : io A) (k : A → io C) :
  progresa m → (∀ a, progresa (k a)) → progresa (ligar m k).
Proof.
  intros Hm Hk w r w'. unfold ligar.
  destruct (m w) as [[a|e|] w1] eqn:E;
    destruct (Hm _ _ _ E) as [Hl [x1 Hx1]].
  - intros [Hl' [x2 Hx2]]%Hk. split; [lia|]. exists (x1 ++ x2).
    by rewrite Hx2, Hx1, app_assoc.
  - intros [= <- <-]. split; [done|]. by exists x1.
  - intros [= <- <-]. split; [done|]. by exists x1.
Qed.

Lemma progresa_para {S} l (cuerpo : Z → S → io S) s :
  (∀ x t, progresa (cuerpo x t)) → progresa (para l cuerpo s).
Proof.
  intros Hc. revert s. induction l as [|x r IH]; intros s; simpl.
  - apply progresa_ret.
  - apply progresa_ligar; [apply Hc|apply IH].
Qed.

Lemma progresa_elevar {A} (r : res A) : progresa (elevar r).
Proof.
  intros w r' w'. unfold elevar.
  destruct r; intros [= <- <-]; (split; [done|]); exists [];
    by rewrite app_nil_r.
Qed.

Lemma progresa_int B s : progresa (int_ B s).
Proof.
  unfold int_. destruct (py_int B s);
    [apply progresa_ret|apply progresa_lanzar].
Qed.

Lemma progresa_enteros B tokens : progresa (enteros B tokens).
Proof.
  unfold enteros. destruct (mapM _ _);
    [apply progresa_ret|apply progresa_lanzar].
Qed.

Lemma progresa_validar estados finales trans :
  progresa (validar_entrada_io estados finales trans).
Proof.
  intros w r w'. unfold validar_entrada_io.
  destruct (validar_entrada estados finales trans) as [ms v].
  intros [= <- <-]. split; [done|]. by eexists.
Qed.

Lemma progresa_atrapar {A} (m : io A) manejador :
  progresa m → (∀ e k, manejador e = Some k → progresa k) →
  progresa (atrapar m manejador).
Proof.
  intros Hm Hh w r w'. unfold atrapar.
  destruct (m w) as [[a|e|] w1] eqn:E;
    destruct (Hm _ _ _ E) as [Hl [x1 Hx1]].
  - intros [= <- <-]. split; [done|]. by exists x1.
  - destruct (manejador e) as [k|] eqn:Ek.
    + intros [Hl' [x2 Hx2]]%(Hh e k Ek). split; [lia|]. exists (x1 ++ x2).
      by rewrite Hx2, Hx1, app_assoc.
    + intros [= <- <-]. split; [done|]. by exists x1.
  - intros [= <- <-]. split; [done|]. by exists x1.
Qed.

Lemma procesar_caso_prueba_progresa B fuel :
  progresa (procesar_caso_prueba B fuel).
Proof.
  unfold procesar_caso_prueba. apply progresa_atrapar.
  - apply progresa_ligar; [apply progresa_input|]. intros l.
    apply progresa_ligar; [apply progresa_int|]. intros estados.
    destruct (estados <=? 0).
    { apply progresa_ligar; [by apply progresa_print|]. intros _.
      apply progresa_ret. }
    apply progresa_ligar; [apply progresa_input|]. intros _.
    apply progresa_ligar; [apply progresa_input|]. intros lf.
    apply progresa_ligar.
    { destruct (String.eqb _ _); [apply progresa_ret|apply progresa_enteros]. }
    intros finales. apply progresa_ligar.
    { apply progresa_para. intros x t. unfold cuerpo_transiciones.
      apply progresa_ligar; [apply progresa_input|]. intros l'.
      apply progresa_ligar; [apply progresa_enteros|]. intros fila.
      apply progresa_ret. }
    intros trans. apply progresa_ligar; [apply progresa_validar|].
    intros valida. destruct (negb valida); [apply progresa_ret|].
    apply progresa_ligar; [apply progresa_elevar|]. intros tabla.
    apply progresa_ligar; [apply progresa_elevar|]. intros ps.
    apply progresa_ret.
  - intros e k Hk. destruct e; simplify_eq;
      (apply progresa_ligar; [by apply progresa_print|]);
      intros _; apply progresa_ret.
Qed.

Lemma cuerpo_caso_progresa B fuel caso :
  progresa (cuerpo_caso B fuel caso tt).
Proof.
  unfold cuerpo_caso.
  apply progresa_ligar; [apply progresa_print|]. intros _.
  apply progresa_ligar; [apply progresa_print|]. intros _.
  apply progresa_ligar; [apply procesar_caso_prueba_progresa|].
  intros [ps|]; [|apply progresa_print].
  apply progresa_ligar; [apply progresa_print|]. intros _.
  destruct ps; apply progresa_print.
Qed.

Lemma casos_progresan B fuel l : progresa (para l (cuerpo_caso B fuel) tt).
Proof.
  apply progresa_para. intros x []. apply cuerpo_caso_progresa.
Qed.

(** *** Computations without a budget *)

Lemma sin_agotar_ret {A} (a : A) : sin_agotar (ret a).
Proof. by intros w w'. Qed.

Lemma sin_agotar_lanzar {A} e : sin_agotar (@lanzar A e).
Proof. by intros w w'. Qed.

Lemma sin_agotar_input : sin_agotar input.
Proof. intros w w'. unfold input. by destruct (lineas w). Qed.

Lemma sin_agotar_print m : sin_agotar (print m).
Proof. by intros w w'. Qed.

Lemma sin_agotar_int B s : sin_agotar (int_ B s).
Proof. intros w w'. unfold int_. by destruct (py_int B s). Qed.

Lemma sin_agotar_enteros B tokens : sin_agotar (enteros B tokens).
Proof. intros w w'. unfold enteros. by destruct (mapM _ _). Qed.

Lemma sin_agotar_validar estados finales trans :
  sin_agotar (validar_entrada_io estados finales trans).
Proof.
  intros w w'. unfold validar_entrada_io.
  by destruct (validar_entrada estados finales trans).
Qed.

Lemma sin_agotar_ligar {A C} (m : io A) (k : A → io C) :
  sin_agotar m → (∀ a, sin_agotar (k a)) → sin_agotar (ligar m k).
Proof.
  intros Hm Hk w w'. unfold ligar.
  destruct (m w) as [[a|e|] w1] eqn:E; [apply Hk|done|].
  by destruct (Hm w w1).
Qed.

Lemma sin_agotar_para {S} l (cuerpo : Z → S → io S) s :
  (∀ x t, sin_agotar (cuerpo x t)) → sin_agotar (para l cuerpo s).
Proof.
  intros Hc. revert s. induction l as [|x r IH]; intros s; simpl.
  - apply sin_agotar_ret.
  - apply sin_agotar_ligar; [apply Hc|apply IH].
Qed.

Lemma sin_agotar_transiciones B x t : sin_agotar (cuerpo_transiciones B x t).
Proof.
  unfold cuerpo_transiciones.
  apply sin_agotar_ligar; [apply sin_agotar_input|]. intros l.
  apply sin_agotar_ligar; [apply sin_agotar_enteros|]. intros fila.
  apply sin_agotar_ret.
Qed.

(** *** Budgets that are enough *)

Lemma estable_const {A} cota (m : io A) w :
  sin_agotar m → estable cota (fun _ => m) w.
Proof.
  intros Hm. destruct (m w) as [r w'] eqn:E. exists r, w'.
  split; [|done]. intros ->. by destruct (Hm w w').
Qed.

Lemma estable_ligar {A C} cota (m : nat → io A) (k : nat → A → io C) w :
  estable cota m w →
  (∀ a w1, (∀ fuel, (cota < fuel)%nat → m fuel w = (Valor a, w1)) →
           estable cota (fun fuel => k fuel a) w1) →
  estable cota (fun fuel => ligar (m fuel) (k fuel)) w.
Proof.
  intros (r & w1 & Hr & Hrun) Hk. destruct r as [a|e|]; [| |done].
  - destruct (Hk a w1 Hrun) as (r2 & w2 & Hr2 & Hrun2).
    exists r2, w2. split; [done|]. intros fuel Hf. unfold ligar.
    rewrite (Hrun fuel Hf). by apply Hrun2.
  - exists (Lanza e), w1. split; [done|]. intros fuel Hf. unfold ligar.
    by rewrite (Hrun fuel Hf).
Qed.

Lemma estable_ligar_const {A C} cota (m : io A) (k : nat → A → io C) w :
  sin_agotar m →
  (∀ a w1, m w = (Valor a, w1) → estable cota (fun fuel => k fuel a) w1) →
  estable cota (fun fuel => ligar m (k fuel)) w.
Proof.
  intros Hm Hk. apply (estable_ligar cota (fun _ => m) k).
  - by apply estable_const.
  - intros a w1 Hrun. apply Hk, (Hrun (S cota)). lia.
Qed.

Lemma estable_atrapar {A} cota (m : nat → io A) manejador w :
  estable cota m w →
  (∀ e k, manejador e = Some k → sin_agotar k) →
  estable cota (fun fuel => atrapar (m fuel) manejador) w.
Proof.
  intros (r & w1 & Hr & Hrun) Hh. destruct r as [a|e|]; [| |done].
  - exists (Valor a), w1. split; [done|]. intros fuel Hf. unfold atrapar.
    by rewrite (Hrun fuel Hf).
  - destruct (manejador e) as [k|] eqn:Ek.
    + destruct (k w1) as [r2 w2] eqn:E2. exists r2, w2. split.
      * intros ->. by destruct (Hh e k Ek w1 w2).
      * intros fuel Hf. unfold atrapar. by rewrite (Hrun fuel Hf), Ek.
    + exists (Lanza e), w1. split; [done|]. intros fuel Hf. unfold atrapar.
      by rewrite (Hrun fuel Hf), Ek.
Qed.

Lemma length_pares_mono n m :
  0 <= n <= m → (length (pares n) <= length (pares m))%nat.
Proof.
  intros H. pose proof (length_pares n ltac:(lia)).
  pose proof (length_pares m ltac:(lia)).
  assert (0 <= (m - n) * (m + n - 1)) as Hd.
  { destruct (decide (m = n)) as [->|]; [lia|].
    apply Z.mul_nonneg_nonneg; lia. }
  replace (m * (m - 1)) with (n * (n - 1) + (m - n) * (m + n - 1)) in *
    by ring.
  lia.
Qed.

(** Every row read takes one line. *)
Lemma para_transiciones B l acc w trans w' :
  para l (cuerpo_transiciones B) acc w = (Valor trans, w') →
  (length trans + length (lineas w') = length acc + length (lineas w))%nat.
Proof.
  revert acc w. induction l as [|x r IH]; intros acc w; simpl.
  - by intros [= <- <-].
  - unfold ligar at 1, cuerpo_transiciones at 1.
    unfold ligar at 1, input at 1.
    destruct (lineas w) as [|l0 ls] eqn:El; [done|].
    unfold ligar at 1, enteros at 1.
    destruct (mapM _ _) as [fila|]; [|done]. cbn [ret lanzar].
    intros H%IH. rewrite length_app in H. simpl in *. lia.
Qed.

(** A case is answered with any budget above the number of pairs over the
    lines left, and the answer does not depend on the budget. *)
Lemma procesar_caso_prueba_estable B cota w :
  (length (pares (len (lineas w))) <= cota)%nat →
  estable cota (procesar_caso_prueba B) w.
Proof.
  intros Hcota. unfold procesar_caso_prueba. apply estable_atrapar.
  2: { intros e k Hk. destruct e; simplify_eq;
         (apply sin_agotar_ligar; [apply sin_agotar_print|]);
         intros _; apply sin_agotar_ret. }
  apply estable_ligar_const; [apply sin_agotar_input|]. intros l0 w1 E1.
  unfold input in E1. destruct (lineas w) as [|l0' ls] eqn:El; [done|].
  injection E1 as -> <-.
  apply estable_ligar_const; [apply sin_agotar_int|]. intros n w2 E2.
  unfold int_ in E2. destruct (py_int B (py_strip B l0)); [|done].
  injection E2 as -> <-.
  destruct (Z.leb_spec n 0) as [|Hpos].
  { apply estable_const.
    apply sin_agotar_ligar; [apply sin_agotar_print|]. intros _.
    apply sin_agotar_ret. }
  apply estable_ligar_const; [apply sin_agotar_input|]. intros la w3 E3.
  unfold input in E3. cbn [lineas salida] in E3.
  destruct ls as [|la' ls]; [done|]. injection E3 as -> <-.
  apply estable_ligar_const; [apply sin_agotar_input|]. intros lf w4 E4.
  unfold input in E4. cbn [lineas salida] in E4.
  destruct ls as [|lf' ls]; [done|]. injection E4 as -> <-.
  cbv zeta. apply estable_ligar_const.
  { destruct (String.eqb _ _);
      [apply sin_agotar_ret|apply sin_agotar_enteros]. }
  intros finales w5 E5.
  assert (w5 = Mundo ls (salida w)) as ->.
  { destruct (String.eqb _ _); [by injection E5 as _ <-|].
    unfold enteros in E5. destruct (mapM _ _); by injection E5 as _ <-. }
  clear E5.
  apply estable_ligar_const.
  { apply sin_agotar_para, sin_agotar_transiciones. }
  intros trans w6 E6%para_transiciones. cbn [lineas salida] in E6.
  apply estable_ligar_const; [apply sin_agotar_validar|].
  intros valida w7 E7. unfold validar_entrada_io in E7.
  destruct (validar_entrada n finales trans) as [ms v] eqn:Ev.
  injection E7 as <- <-. destruct v; cbn [negb].
  2: { apply estable_const, sin_agotar_ret. }
  assert (entrada_valida n finales trans) as Hval
    by (apply validar_entrada_valida; by rewrite Ev).
  destruct (crear_tabla_spec _ _ _ Hval)
    as (T0 & T & it & _ & Hrun & _ & Hc & _).
  assert (length (pares n) <= cota)%nat as Hn.
  { etrans; [|apply Hcota]. apply length_pares_mono.
    destruct Hval as (? & _ & Hlen & _). unfold len in *. simpl in *. lia. }
  eexists _, _. split; [|intros fuel Hf].
  2: { unfold ligar at 1, elevar at 1, crear_tabla_distinguibilidad.
       rewrite Hrun by (pose proof (pendientes_pares n T0); lia).
       cbn [bind]. unfold ligar at 1, elevar at 1.
       rewrite encontrar_pares_filter by (by rewrite Z.max_r by lia).
       reflexivity. }
  done.
Qed.

Lemma cuerpo_caso_estable B cota caso w :
  (length (pares (len (lineas w))) <= cota)%nat →
  estable cota (fun fuel => cuerpo_caso B fuel caso tt) w.
Proof.
  intros Hcota. unfold cuerpo_caso.
  apply estable_ligar_const; [apply sin_agotar_print|].
  intros _ w1 [= <-].
  apply estable_ligar_const; [apply sin_agotar_print|].
  intros _ w2 [= <-].
  apply (estable_ligar cota (procesar_caso_prueba B)).
  - apply procesar_caso_prueba_estable. by subst.
  - intros x w3 _. apply estable_const.
    destruct x as [ps|]; [|apply sin_agotar_print].
    apply sin_agotar_ligar; [apply sin_agotar_print|]. intros _.
    destruct ps; apply sin_agotar_print.
Qed.

Lemma casos_estables B N l w :
  (length (lineas w) <= N)%nat →
  estable (length (pares (Z.of_nat N)))
          (fun fuel => para l (cuerpo_caso B fuel) tt) w.
Proof.
  revert w. induction l as [|caso l IH]; intros w Hw; simpl.
  - apply estable_const, sin_agotar_ret.
  - apply (estable_ligar _ (fun fuel => cuerpo_caso B fuel caso tt)
             (fun fuel s' => para l (cuerpo_caso B fuel) s')).
    + apply cuerpo_caso_estable, length_pares_mono. unfold len. lia.
    + intros [] w1 Hrun. apply IH.
      specialize (Hrun _ (Nat.lt_succ_diag_r _)).
      apply cuerpo_caso_progresa in Hrun as [Hl _]. lia.
Qed.

(** The loop over the cases, with enough budget. *)
Lemma casos_completos B N l w :
  (length (lineas w) <= N)%nat →
  ∃ w', (∀ fuel, (length (pares (Z.of_nat N)) < fuel)%nat →
           para l (cuerpo_caso B fuel) tt w = (Valor tt, w')) ∧
        casos_anunciados (salida w') = casos_anunciados (salida w) ++ l ∧
        ∃ extra, salida w' = salida w ++ extra.
Proof.
  intros Hw. destruct (casos_estables B N l w Hw) as (r & w' & Hr & Hrun).
  pose proof (Hrun _ (Nat.lt_succ_diag_r _)) as E.
  pose proof E as [_ Hx]%casos_progresan.
  apply casos_anuncian in E as [->|[-> Hc]]; [done|].
  by exists w'.
Qed.

(** [main] once the file has been read: what it returns and prints, with
    any budget above the number of pairs over the lines of the file. *)
Lemma main_leido B contenido w0 :
  ∃ w,
    (∀ fuel, (length (pares (len contenido)) < fuel)%nat →
       main B fuel (Leido contenido) w0 = (Valor tt, w)) ∧
    match contenido with
    | [] => salida w = salida w0 ++ [ImpFinEntrada]
    | l0 :: _ =>
        match py_int B (py_strip B l0) with
        | None => salida w = salida w0 ++ [ImpFormato]
        | Some casos =>
            if casos <=? 0 then salida w = salida w0 ++ [ImpCasosNoPositivo]
            else
              casos_anunciados (salida w)
              = casos_anunciados (salida w0) ++ range 1 (casos + 1) ∧
              ∃ medio,
                salida w
                = salida w0 ++ [ImpProcesando casos; ImpSeparador] ++ medio
                  ++ [ImpSeparadorFinal; ImpCompletado]
        end
    end.
Proof.
  unfold main. unfold ligar at 1. cbn [leer_archivo_entrada ret].
  unfold ligar at 1, instalar at 1. unfold atrapar.
  unfold ligar at 1, input at 1. cbn [lineas salida].
  destruct contenido as [|l0 resto]; [by eexists|].
  unfold ligar at 1, int_ at 1.
  destruct (py_int B (py_strip B l0)) as [casos|]; [|by eexists].
  cbn [ret]. destruct (casos <=? 0); [by eexists|].
  unfold ligar at 1, print at 1. unfold ligar at 1, print at 1.
  cbn [lineas salida].
  destruct (casos_completos B (length resto) (range 1 (casos + 1))
              (Mundo resto
                 ((salida w0 ++ [ImpProcesando casos]) ++ [ImpSeparador])))
    as (w1 & Hrun & Hc & medio & Hm); [done|].
  cbn [salida] in Hc, Hm.
  exists (Mundo (lineas w1)
            ((salida w1 ++ [ImpSeparadorFinal]) ++ [ImpCompletado])).
  split_and!.
  - intros fuel Hf. unfold ligar at 1. rewrite Hrun; [done|].
    assert (length (pares (Z.of_nat (length resto)))
            <= length (pares (len (l0 :: resto))))%nat; [|lia].
    apply length_pares_mono. unfold len. simpl. lia.
  - cbn [salida]. rewrite !casos_anunciados_app, Hc, !casos_anunciados_app.
    simpl. by rewrite !app_nil_r.
  - exists medio. cbn [salida]. rewrite Hm. by rewrite <- !app_assoc.
Qed.

(** X13. A batch is processed to the end.  When the file was read and its
    first line holds a positive number of cases, [main] returns normally
    (no exception leaves it, and any budget of passes above the number of
    pairs over the file's line count is enough, with the same outcome for
    all of them), having announced every case from 1 to that number, in
    order, whatever happens to each of them (malformed, rejected, cut
    short), and having printed the closing lines last. *)
Theorem main_anuncia_todos B l0 resto casos :
  py_int B (py_strip B l0) = Some casos → 0 < casos →
  ∃ w,
    (∀ fuel, (length (pares (len (l0 :: resto))) < fuel)%nat →
       main B fuel (Leido (l0 :: resto)) (Mundo [] []) = (Valor tt, w)) ∧
    casos_anunciados (salida w) = range 1 (casos + 1) ∧
    ∃ pre, salida w = pre ++ [ImpSeparadorFinal; ImpCompletado].
Proof.
  intros Hn Hpos.
  destruct (main_leido B (l0 :: resto) (Mundo [] [])) as (w & Hrun & Hw).
  rewrite Hn in Hw. destruct (Z.leb_spec casos 0) as [|_]; [lia|].
  destruct Hw as [Hc [medio Hm]]. exists w. split_and!; [done..|].
  exists ([ImpProcesando casos; ImpSeparador] ++ medio). by rewrite Hm.
Qed.

Lemma main_anuncia_todos_witness :
  ∃ w,
    (∀ fuel,
       (length (pares (len ("2" :: ["3"; "a b"; "2"; "0 1"; "0 1"; "2 2";
                                    "2"; "a"]))) < fuel)%nat →
       main builtins_muestra fuel
         (Leido ("2" :: ["3"; "a b"; "2"; "0 1"; "0 1"; "2 2"; "2"; "a"]))
         (Mundo [] [])
       = (Valor tt, w)) ∧
    casos_anunciados (salida w) = range 1 (2 + 1) ∧
    ∃ pre, salida w = pre ++ [ImpSeparadorFinal; ImpCompletado].
Proof.
  apply (main_anuncia_todos builtins_muestra "2"
           ["3"; "a b"; "2"; "0 1"; "0 1"; "2 2"; "2"; "a"] 2).
  - vm_compute. reflexivity.
  - lia.
Defined.

(** X14. Once the file has been read, [main] always returns normally: no
    exception leaves it, and any budget of passes above the number of pairs
    over the file's line count is enough, with the same outcome for all of
    them.  What it adds to the output is: the end-of-input message alone
    for an empty file; the format message alone when the first line is not
    a number; the message for a non-positive count alone when it is one;
    otherwise the two header lines, what the cases print, and the two
    closing lines. *)
Theorem main_no_lanza B contenido w0 :
  ∃ w,
    (∀ fuel, (length (pares (len contenido)) < fuel)%nat →
       main B fuel (Leido contenido) w0 = (Valor tt, w)) ∧
    ∃ extra,
      salida w = salida w0 ++ extra ∧
      match contenido with
      | [] => extra = [ImpFinEntrada]
      | l0 :: _ =>
          match py_int B (py_strip B l0) with
          | None => extra = [ImpFormato]
          | Some casos =>
              if casos <=? 0 then extra = [ImpCasosNoPositivo]
              else
                ∃ medio,
                  extra = [ImpProcesando casos; ImpSeparador] ++ medio
                          ++ [ImpSeparadorFinal; ImpCompletado]
          end
      end.
Proof.
  destruct (main_leido B contenido w0) as (w & Hrun & Hw).
  exists w. split; [done|].
  destruct contenido as [|l0 resto]; [by eexists|].
  destruct (py_int B (py_strip B l0)) as [casos|]; [|by eexists].
  destruct (casos <=? 0); [by eexists|].
  destruct Hw as [_ [medio Hm]]. eexists. split; [done|]. by exists medio.
Qed.

Lemma main_no_lanza_witness :
  ∃ w,
    (∀ fuel,
       (length (pares (len ["2"; "3"; "a b"; "2"; "0 1"; "0 1"; "2 2";
                            "2"; "a"])) < fuel)%nat →
       main builtins_muestra fuel
         (Leido ["2"; "3"; "a b"; "2"; "0 1"; "0 1"; "2 2"; "2"; "a"])
         (Mundo [] [])
       = (Valor tt, w)) ∧
    ∃ extra,
      salida w = [] ++ extra ∧
      ∃ medio,
        extra = [ImpProcesando 2; ImpSeparador] ++ medio
                ++ [ImpSeparadorFinal; ImpCompletado].
Proof.
  exact (main_no_lanza builtins_muestra
           ["2"; "3"; "a b"; "2"; "0 1"; "0 1"; "2 2"; "2"; "a"]
           (Mundo [] [])).
Defined.
